(** * go-scheduler: a shallow embedding of [scheduler.go]

    The package runs several recurring jobs through one worker goroutine.
    Every registered [Schedule] has a goroutine of its own ([scheduleLoop]),
    which pushes the Schedule onto the shared channel [jobch] when its timer
    fires and re-arms the timer when the worker goroutine ([workerLoop])
    confirms that the job has returned.

    The goroutines are embedded as an interleaving transition system: a
    [state] holds the clock, the heap of Schedule objects together with the
    program counter and locals of the goroutine that runs each of them, the
    Scheduler and the program counter of the worker goroutine.  An [action]
    names the goroutine that moves (or the clock, or a call of
    [AddSchedule]); [step] executes the source lines of that move and is a
    partial function: [None] means that the goroutine is blocked (or that the
    action does not apply).  Every step also reports the [event]s it causes,
    so that properties of whole executions can be stated on traces. *)

From Stdlib Require Import ZArith Lia Sorted.
From stdpp Require Import base option list numbers.

Local Open Scope Z_scope.

(** ** 64-bit integers

    [time.Duration] is an [int64]; Go's signed arithmetic wraps around. *)

Definition min_int64 : Z := - 2 ^ 63.
Definition max_int64 : Z := 2 ^ 63 - 1.

Definition int64 (z : Z) : Prop := min_int64 <= z <= max_int64.
Definition int64b (z : Z) : bool := (min_int64 <=? z) && (z <=? max_int64).

Definition wrap64 (z : Z) : Z := (z + 2 ^ 63) mod 2 ^ 64 - 2 ^ 63.
Definition sat64 (z : Z) : Z := Z.max min_int64 (Z.min max_int64 z).

(** ** Channels

    A buffered channel is its capacity and the queue of values sent and not
    yet received.  [send] and [recv] return [None] where the Go operation
    would block.  (Only channels made with capacity 1 occur in the package;
    a rendezvous on a capacity-0 channel is not modelled, [send] on it
    just blocks.) *)

Record chan (A : Type) : Type := mkChan { cap : nat; buf : list A }.
Arguments mkChan {A} cap buf.
Arguments cap {A} c.
Arguments buf {A} c.

Definition make {A : Type} (n : nat) : chan A := mkChan n [].

Definition send {A : Type} (x : A) (c : chan A) : option (chan A) :=
  if (length (buf c) <? cap c)%nat
  then Some (mkChan (cap c) (buf c ++ [x]))
  else None.

Definition recv {A : Type} (c : chan A) : option (A * chan A) :=
  match buf c with
  | [] => None
  | x :: rest => Some (x, mkChan (cap c) rest)
  end.

(** ** Package [time]

    Instants are readings of the monotonic clock in nanoseconds.  [Sub]
    saturates as documented; a timer expires once the clock has reached the
    instant it was armed for (at once, when the duration is zero or
    negative), and then performs a non-blocking send on its one-slot channel
    [C].  [Reset] re-arms the timer and leaves [C] as it is. *)

Module time.

Definition Duration : Type := Z.
Definition Time : Type := Z.

Definition Nanosecond : Duration := 1.

Definition Sub (t u : Time) : Duration := sat64 (t - u).
Definition Since (clock : Time) (t : Time) : Duration := Sub clock t.

Record Timer : Type := mkTimer { when : option Time; C : chan Time }.

Definition NewTimer (clock : Time) (d : Duration) : Timer :=
  mkTimer (Some (clock + d)) (make 1).

Definition Reset (tm : Timer) (clock : Time) (d : Duration) : Timer :=
  mkTimer (Some (clock + d)) (C tm).

(** The runtime side of a timer: [None] while it is not due. *)
Definition expire (tm : Timer) (clock : Time) : option Timer :=
  match when tm with
  | Some t =>
      if t <=? clock
      then Some (mkTimer None (default (C tm) (send clock (C tm))))
      else None
  | None => None
  end.

End time.

(** ** Data of the package *)

(** Schedules are referred to by address. *)
Abbreviation ptr := nat (only parsing).

(** A [Worker] is opaque to the package: only its identity is kept.  The
    time [PerformWork] takes is whatever the clock advances between its call
    and its return. *)
Definition Worker : Type := nat.

Abbreviation confirmation := bool (only parsing).

Record Schedule : Type := mkSchedule {
  interval : time.Duration;
  worker : Worker;
  confirmationChannel : chan confirmation
}.

Record Scheduler : Type := mkScheduler {
  schedules : list ptr;
  jobch : chan ptr
}.

(** Program counter and locals ([timer], [startTime]) of a [scheduleLoop]
    goroutine; the constructors are named after the source line the
    goroutine is at. *)
Inductive loop : Type :=
| L84
| L87 (timer : time.Timer) (startTime : time.Time)
| L91 (timer : time.Timer) (startTime : time.Time).

(** Program counter of the [workerLoop] goroutine: waiting on [jobch],
    inside [PerformWork] of a Schedule, or about to confirm to it. *)
Inductive wloop : Type :=
| W52
| W53 (schedule : ptr)
| W54 (schedule : ptr).

Record cell : Type := mkCell { obj : Schedule; task : loop }.

Record state : Type := mkState {
  now : time.Time;
  heap : list cell;
  scheduler : Scheduler;
  consumer : wloop
}.

(** The moves of the system:
    - [Tick d]: the clock advances by [d] nanoseconds;
    - [CallAddSchedule w iv]: the client calls [AddSchedule];
    - [LoopStart s]: the goroutine of [s] runs lines 84-85;
    - [TimerExpire s]: the runtime expires the timer of [s];
    - [LoopTimer s]: the select of [s] takes [<-timer.C], lines 88-90;
    - [LoopSend s]: the send of line 91 goes through;
    - [LoopConfirmed s]: the select of [s] takes [<-s.confirmationChannel],
      lines 96-102;
    - [WorkerRecv]: the worker goroutine receives on line 52 and calls
      [PerformWork];
    - [WorkerReturn]: [PerformWork] returns;
    - [WorkerConfirm]: the send of line 54 goes through.
    When both cases of the select are ready, either may be taken. *)
Inductive action : Type :=
| Tick (d : Z)
| CallAddSchedule (w : Worker) (iv : time.Duration)
| LoopStart (s : ptr)
| TimerExpire (s : ptr)
| LoopTimer (s : ptr)
| LoopSend (s : ptr)
| LoopConfirmed (s : ptr)
| WorkerRecv
| WorkerReturn
| WorkerConfirm.

(** What a step lets one observe: the timer of [s] is armed with duration
    [d] ([NewTimer] or [Reset]); [s] records [startTime = t]; [s] is put on
    [jobch]; [PerformWork] of [s] is called, and returns, at clock reading
    [t]; the confirmation for [s] is sent. *)
Inductive event : Type :=
| EArm (s : ptr) (d : time.Duration)
| EStart (s : ptr) (t : time.Time)
| EDispatch (s : ptr)
| EEnter (s : ptr) (t : time.Time)
| EExit (s : ptr) (t : time.Time)
| EAck (s : ptr).

(** ** The functions of the package *)

(** [New], called when the clock reads [clock]: lines 42-47. *)
Definition New (clock : time.Time) : state :=
  mkState clock [] (mkScheduler [] (make 1)) W52.

(** [AddSchedule]: lines 74-80.  The new Schedule is allocated at the next
    free address and its goroutine is spawned, not run. *)
Definition AddSchedule (w : Worker) (iv : time.Duration) (st : state) : state :=
  let schedule := length (heap st) in
  mkState (now st)
          (heap st ++ [mkCell (mkSchedule iv w (make 1)) L84])
          (mkScheduler (schedules (scheduler st) ++ [schedule])
                       (jobch (scheduler st)))
          (consumer st).

(** Lines 97-101: the wait until the next run. *)
Definition waitTime (iv : time.Duration) (passedTime : time.Duration) : time.Duration :=
  let w := wrap64 (iv - passedTime) in
  if w <? 0 then time.Nanosecond else w.

Definition set_cell (s : ptr) (c : cell) (st : state) : state :=
  mkState (now st) (<[s := c]> (heap st)) (scheduler st) (consumer st).

Definition set_jobch (ch : chan ptr) (st : state) : state :=
  mkState (now st) (heap st)
          (mkScheduler (schedules (scheduler st)) ch) (consumer st).

Definition set_consumer (w : wloop) (st : state) : state :=
  mkState (now st) (heap st) (scheduler st) w.

(** One move of the goroutine running [scheduleLoop] on the Schedule at
    [s], or of its timer. *)
Definition scheduleLoop (a : action) (s : ptr) (c : cell) (st : state)
  : option (state * list event) :=
  match a, task c with
  | LoopStart _, L84 =>
      (* 84-85 *)
      let timer := time.NewTimer (now st) time.Nanosecond in
      Some (set_cell s (mkCell (obj c) (L87 timer (now st))) st,
            [EArm s time.Nanosecond])
  | TimerExpire _, L87 timer startTime =>
      timer' ← time.expire timer (now st);
      Some (set_cell s (mkCell (obj c) (L87 timer' startTime)) st, [])
  | TimerExpire _, L91 timer startTime =>
      timer' ← time.expire timer (now st);
      Some (set_cell s (mkCell (obj c) (L91 timer' startTime)) st, [])
  | LoopTimer _, L87 timer _ =>
      (* 88-90 *)
      '(_, ch) ← recv (time.C timer);
      Some (set_cell s (mkCell (obj c) (L91 (time.mkTimer (time.when timer) ch) (now st))) st,
            [EStart s (now st)])
  | LoopSend _, L91 timer startTime =>
      (* 91 *)
      ch ← send s (jobch (scheduler st));
      Some (set_jobch ch (set_cell s (mkCell (obj c) (L87 timer startTime)) st),
            [EDispatch s])
  | LoopConfirmed _, L87 timer startTime =>
      (* 96-102 *)
      '(_, ch) ← recv (confirmationChannel (obj c));
      let passedTime := time.Since (now st) startTime in
      let w := waitTime (interval (obj c)) passedTime in
      let timer' := time.Reset timer (now st) w in
      Some (set_cell s (mkCell (mkSchedule (interval (obj c)) (worker (obj c)) ch)
                               (L87 timer' startTime)) st,
            [EArm s w])
  | _, _ => None
  end.

(** One move of the goroutine running [workerLoop]. *)
Definition workerLoop (a : action) (st : state) : option (state * list event) :=
  match a, consumer st with
  | WorkerRecv, W52 =>
      (* 52, and the call on line 53 *)
      '(schedule, ch) ← recv (jobch (scheduler st));
      Some (set_consumer (W53 schedule) (set_jobch ch st), [EEnter schedule (now st)])
  | WorkerReturn, W53 schedule =>
      (* 53 returns *)
      Some (set_consumer (W54 schedule) st, [EExit schedule (now st)])
  | WorkerConfirm, W54 schedule =>
      (* 54 *)
      c ← heap st !! schedule;
      ch ← send true (confirmationChannel (obj c));
      Some (set_consumer W52
              (set_cell schedule
                 (mkCell (mkSchedule (interval (obj c)) (worker (obj c)) ch) (task c)) st),
            [EAck schedule])
  | _, _ => None
  end.

Definition step (a : action) (st : state) : option (state * list event) :=
  match a with
  | Tick d =>
      if 0 <=? d
      then Some (mkState (now st + d) (heap st) (scheduler st) (consumer st), [])
      else None
  | CallAddSchedule w iv =>
      if int64b iv then Some (AddSchedule w iv st, []) else None
  | LoopStart s | TimerExpire s | LoopTimer s | LoopSend s | LoopConfirmed s =>
      c ← heap st !! s;
      scheduleLoop a s c st
  | WorkerRecv | WorkerReturn | WorkerConfirm => workerLoop a st
  end.

(** An execution: the actions are taken in order; the events are collected
    in the order they happen. *)
Fixpoint exec (acts : list action) (st : state) : option (state * list event) :=
  match acts with
  | [] => Some (st, [])
  | a :: acts' =>
      '(st1, ev1) ← step a st;
      '(st2, ev2) ← exec acts' st1;
      Some (st2, ev1 ++ ev2)
  end.

(** The states (and traces) the program can be in, when [New] was called at
    clock reading [t0]. *)
Definition reachable (t0 : time.Time) (st : state) (evs : list event) : Prop :=
  ∃ acts, exec acts (New t0) = Some (st, evs).

(** ** An undisturbed Schedule

    The scenario of the package documentation: one Schedule is served with
    no latency.  [cycle] waits for the timer of [s], lets the Schedule
    dispatch itself and the worker run the job for [d] nanoseconds, and lets
    the Schedule take the confirmation at once. *)

Definition cycle (s : ptr) (d : Z) (st : state) : list action :=
  match heap st !! s with
  | Some (mkCell _ (L87 (time.mkTimer (Some t) _) _)) =>
      [Tick (t - now st); TimerExpire s; LoopTimer s; LoopSend s; WorkerRecv;
       Tick d; WorkerReturn; WorkerConfirm; LoopConfirmed s]
  | _ => []
  end.

Fixpoint undisturbed (s : ptr) (ds : list Z) (st : state) : option (state * list event) :=
  match ds with
  | [] => Some (st, [])
  | d :: ds' =>
      '(st1, ev1) ← exec (cycle s d st) st;
      '(st2, ev2) ← undisturbed s ds' st1;
      Some (st2, ev1 ++ ev2)
  end.

(** Observations on a trace. *)
Definition starts (s : ptr) (evs : list event) : list time.Time :=
  omap (λ e, match e with
             | EEnter s' t => if decide (s' = s) then Some t else None
             | _ => None
             end) evs.

Definition arms (s : ptr) (evs : list event) : list time.Duration :=
  omap (λ e, match e with
             | EArm s' d => if decide (s' = s) then Some d else None
             | _ => None
             end) evs.

(** ** Who holds the run of a Schedule

    Once its goroutine has started, a Schedule is in exactly one place of
    its cycle: its timer is armed, or has expired into [timer.C]; or the
    goroutine stands before the send of line 91; or the Schedule is queued
    on [jobch]; or the worker goroutine holds it; or its confirmation is
    buffered.  [tokens] counts these places. *)

Definition queued (ch : chan ptr) (s : ptr) : nat :=
  length (filter (λ p, p = s) (buf ch)).

Definition holds (w : wloop) (s : ptr) : nat :=
  match w with
  | W52 => 0
  | W53 p | W54 p => if decide (p = s) then 1 else 0
  end.

Definition confirmed (c : cell) : nat :=
  length (buf (confirmationChannel (obj c))).

Definition timer_pending (tm : time.Timer) : nat :=
  (match time.when tm with Some _ => 1 | None => 0 end
   + length (buf (time.C tm)))%nat.

Definition pending (c : cell) : nat :=
  match task c with
  | L84 => 0
  | L87 tm _ => timer_pending tm
  | L91 tm _ => S (timer_pending tm)
  end.

(** Dispatches of [s] that are out and whose confirmation the goroutine of
    [s] has not received yet. *)
Definition outstanding (st : state) (s : ptr) (c : cell) : nat :=
  (queued (jobch (scheduler st)) s + holds (consumer st) s + confirmed c)%nat.

Definition tokens (q : chan ptr) (w : wloop) (s : ptr) (c : cell) : nat :=
  (pending c + queued q s + holds w s + confirmed c)%nat.

Definition started (c : cell) : nat :=
  match task c with L84 => 0 | _ => 1 end.

Definition timer_cap (c : cell) : nat :=
  match task c with
  | L84 => 1
  | L87 tm _ | L91 tm _ => cap (time.C tm)
  end.

Definition cell_ok (q : chan ptr) (w : wloop) (s : ptr) (c : cell) : Prop :=
  cap (confirmationChannel (obj c)) = 1%nat
  ∧ timer_cap c = 1%nat
  ∧ tokens q w s c = started c.

Definition allocated (st : state) (s : ptr) : Prop := (s < length (heap st))%nat.

Record inv (st : state) : Prop := mkInv {
  inv_cap : cap (jobch (scheduler st)) = 1%nat;
  inv_len : (length (buf (jobch (scheduler st))) ≤ 1)%nat;
  inv_queue : ∀ p, p ∈ buf (jobch (scheduler st)) → allocated st p;
  inv_held : ∀ p, holds (consumer st) p = 1%nat → allocated st p;
  inv_schedules : schedules (scheduler st) = seq 0 (length (heap st));
  inv_cells : ∀ s c, heap st !! s = Some c →
                cell_ok (jobch (scheduler st)) (consumer st) s c
}.

(** The worker goroutine seen from the trace: replaying the events of
    [workerLoop] from line 52 gives its program counter, or [None] when the
    events are not in the order receive-and-call, return, confirm. *)
Definition worker_event (w : wloop) (e : event) : option wloop :=
  match e, w with
  | EEnter s _, W52 => Some (W53 s)
  | EExit s _, W53 p => if decide (s = p) then Some (W54 s) else None
  | EAck s, W54 p => if decide (s = p) then Some W52 else None
  | (EEnter _ _ | EExit _ _ | EAck _), _ => None
  | _, _ => Some w
  end.

Fixpoint worker_trace (w : wloop) (evs : list event) : option wloop :=
  match evs with
  | [] => Some w
  | e :: evs' => w' ← worker_event w e; worker_trace w' evs'
  end.

(** The jobs inside [PerformWork] after a trace: entered and not left. *)
Fixpoint in_progress (evs : list event) (running : list ptr) : list ptr :=
  match evs with
  | [] => running
  | EEnter s _ :: evs' => in_progress evs' (s :: running)
  | EExit s _ :: evs' => in_progress evs' (list_difference running [s])
  | _ :: evs' => in_progress evs' running
  end.

(** The worker goroutine's job inside [PerformWork], by its program
    counter. *)
Definition running (w : wloop) : list ptr :=
  match w with W53 p => [p] | _ => [] end.

(** The clock readings at the calls and returns of [PerformWork]. *)
Definition work_times (evs : list event) : list time.Time :=
  omap (λ e, match e with
             | EEnter _ t | EExit _ t => Some t
             | _ => None
             end) evs.

(** ** Scenarios *)

Definition outcome (r : option (state * list event)) : state * list event :=
  default (New 0, []) r.

(** Two Schedules are registered and started, both timers expire, and the
    worker goroutine takes the first one. *)
Definition busy_start : list action :=
  [CallAddSchedule 1%nat 20; CallAddSchedule 2%nat 30;
   LoopStart 0%nat; LoopStart 1%nat; Tick 1;
   TimerExpire 0%nat; TimerExpire 1%nat; LoopTimer 0%nat; LoopTimer 1%nat;
   LoopSend 0%nat; WorkerRecv].

Definition served_state : state := Eval vm_compute in fst (outcome (exec busy_start (New 0))).
Definition served_trace : list event := Eval vm_compute in snd (outcome (exec busy_start (New 0))).

(** ... and the second one dispatches itself meanwhile. *)
Definition busy_state : state :=
  Eval vm_compute in fst (outcome (exec (busy_start ++ [LoopSend 1%nat]) (New 0))).
Definition busy_trace : list event :=
  Eval vm_compute in snd (outcome (exec (busy_start ++ [LoopSend 1%nat]) (New 0))).
Definition busy_cell : cell :=
  Eval vm_compute in default (mkCell (mkSchedule 0 0%nat (make 0)) L84) (heap busy_state !! 1%nat).

(** One Schedule with interval [iv], registered and started one nanosecond
    before clock reading 0 and served undisturbed, its jobs taking [ds]. *)
Definition solo (iv : time.Duration) (ds : list Z) : option (state * list event) :=
  '(st0, ev0) ← exec [CallAddSchedule 0%nat iv; LoopStart 0%nat] (New (-1));
  '(st1, ev1) ← undisturbed 0%nat ds st0;
  Some (st1, ev0 ++ ev1).

(** The same up to the moment the confirmation of the first job, which took
    [d], waits in the channel of the Schedule. *)
Definition first_job (iv : time.Duration) (d : Z) : list action :=
  [CallAddSchedule 0%nat iv; LoopStart 0%nat; Tick 1; TimerExpire 0%nat;
   LoopTimer 0%nat; LoopSend 0%nat; WorkerRecv; Tick d; WorkerReturn; WorkerConfirm].

Definition confirmed_state (iv : time.Duration) (d : Z) : state :=
  fst (outcome (exec (first_job iv d) (New (-1)))).
Definition confirmed_cell (iv : time.Duration) (d : Z) : cell :=
  default (mkCell (mkSchedule 0 0%nat (make 0)) L84) (heap (confirmed_state iv d) !! 0%nat).

(** A Schedule that has just been registered. *)
Definition registered_state : state := AddSchedule 7%nat 3600000000000 (New 0).
Definition registered_cell : cell := mkCell (mkSchedule 3600000000000 7%nat (make 1)) L84.


(** The state in which [solo] starts serving the Schedule. *)
Definition solo_start (iv : time.Duration) : state :=
  fst (outcome (exec [CallAddSchedule 0%nat iv; LoopStart 0%nat] (New (-1)))).




(** ** Further observations on a trace *)

(** The Schedules put on [jobch], and the Schedules whose job was called, in
    the order of the trace. *)
Definition dispatched (evs : list event) : list ptr :=
  omap (λ e, match e with EDispatch s => Some s | _ => None end) evs.

Definition entered (evs : list event) : list ptr :=
  omap (λ e, match e with EEnter s _ => Some s | _ => None end) evs.

(** How often an event of a kind has happened to the Schedule at [s]. *)
Inductive kind : Type := KArm | KStart | KDispatch | KEnter | KExit | KAck.

Definition is_kind (k : kind) (s : ptr) (e : event) : bool :=
  match k, e with
  | KArm, EArm p _ | KStart, EStart p _ | KDispatch, EDispatch p
  | KEnter, EEnter p _ | KExit, EExit p _ | KAck, EAck p => Nat.eqb p s
  | _, _ => false
  end.

Fixpoint count (k : kind) (s : ptr) (evs : list event) : nat :=
  match evs with
  | [] => 0
  | e :: evs' => ((if is_kind k s e then 1 else 0) + count k s evs')%nat
  end.

Definition is_AddSchedule (a : action) : bool :=
  match a with CallAddSchedule _ _ => true | _ => false end.

(** The moves of the goroutines of the package (not of the clock or of the
    client). *)
Definition is_goroutine (a : action) : bool :=
  match a with Tick _ | CallAddSchedule _ _ => false | _ => true end.

Definition calling (w : wloop) (s : ptr) : nat :=
  match w with W53 p => if decide (p = s) then 1 else 0 | _ => 0 end.

Definition confirming (w : wloop) (s : ptr) : nat :=
  match w with W54 p => if decide (p = s) then 1 else 0 | _ => 0 end.

(** The first job of a Schedule of interval 10 took 15, and its confirmation
    waits in the channel of the Schedule. *)
Definition acked_state : state := Eval vm_compute in confirmed_state 10 15.
Definition acked_trace : list event :=
  Eval vm_compute in snd (outcome (exec (first_job 10 15) (New (-1)))).
Definition acked_cell : cell := Eval vm_compute in confirmed_cell 10 15.

(** The timer of the first run of a Schedule has just expired. *)
Definition expired_actions : list action :=
  [CallAddSchedule 0%nat 10; LoopStart 0%nat; Tick 1; TimerExpire 0%nat].
Definition expired_state : state :=
  Eval vm_compute in fst (outcome (exec expired_actions (New (-1)))).
Definition expired_trace : list event :=
  Eval vm_compute in snd (outcome (exec expired_actions (New (-1)))).

(** The number of calls of [AddSchedule] among the moves. *)
Definition registrations (acts : list action) : nat :=
  length (List.filter is_AddSchedule acts).

(** The state of the two Schedules a while later, the first job still
    running. *)
Definition busy_state_later : state :=
  Eval vm_compute in
    fst (outcome (exec [Tick 1000; LoopSend 1%nat; Tick 1000] served_state)).

(** The [startTime] of a goroutine that has passed line 85. *)
Definition start_of (c : cell) : option time.Time :=
  match task c with
  | L84 => None
  | L87 _ t | L91 _ t => Some t
  end.


(** The account of the runs of the Schedule at [s] after a trace: every
    arming of its timer is followed by at most one call of its job, a call
    by its return, and a return by its confirmation. *)
Definition accounting (st : state) (evs : list event) (s : ptr) : Prop :=
  match heap st !! s with
  | None =>
      count KArm s evs = 0%nat ∧ count KEnter s evs = 0%nat
      ∧ count KExit s evs = 0%nat ∧ count KAck s evs = 0%nat
  | Some c =>
      count KArm s evs
      = (count KEnter s evs + pending c + queued (jobch (scheduler st)) s)%nat
      ∧ count KEnter s evs = (count KExit s evs + calling (consumer st) s)%nat
      ∧ count KExit s evs = (count KAck s evs + confirming (consumer st) s)%nat
  end.

(** The clock readings at which the Schedule at [s] recorded [startTime] on
    line 90, in the order of the trace. *)
Definition start_times (s : ptr) (evs : list event) : list time.Time :=
  omap (λ e, match e with
             | EStart s' t => if decide (s' = s) then Some t else None
             | _ => None
             end) evs.

(** Neighbours in the list are at least [iv] apart. *)
Definition spaced (iv : Z) (l : list Z) : Prop :=
  ∀ i t1 t2, l !! i = Some t1 → l !! S i = Some t2 → t1 + iv ≤ t2.

(** What the timer of a cell owes to the last [startTime] recorded: it is
    not due, and has not expired, earlier than one interval after it. *)
Definition timer_after (clock : time.Time) (c : cell) (l : list time.Time) : Prop :=
  match task c with
  | L84 => l = []
  | L87 tm start | L91 tm start =>
      ∀ t1, list.last l = Some t1 →
        start = t1
        ∧ (∀ t, time.when tm = Some t → t1 + interval (obj c) ≤ t)
        ∧ (∀ x, x ∈ buf (time.C tm) → t1 + interval (obj c) ≤ x ∧ x ≤ clock)
  end.

Definition spacing (st : state) (evs : list event) (s : ptr) : Prop :=
  match heap st !! s with
  | None => start_times s evs = []
  | Some c =>
      0 ≤ interval (obj c) ≤ max_int64 →
      spaced (interval (obj c)) (start_times s evs)
      ∧ timer_after (now st) c (start_times s evs)
  end.

(** Three undisturbed runs of a Schedule of interval 20, taking 5, 10
    and 1. *)
Definition three_runs_state : state :=
  Eval vm_compute in fst (outcome (solo 20 [5; 10; 1])).
Definition three_runs_trace : list event :=
  Eval vm_compute in snd (outcome (solo 20 [5; 10; 1])).

(** The first job of a Schedule of interval 10 has just been called. *)
Definition armed_state : state :=
  Eval vm_compute in
    fst (outcome (exec [CallAddSchedule 0%nat 10; LoopStart 0%nat; Tick 1] (New (-1)))).
Definition armed_trace : list event :=
  Eval vm_compute in
    snd (outcome (exec [CallAddSchedule 0%nat 10; LoopStart 0%nat; Tick 1] (New (-1)))).

(** The state of a freshly started Schedule one nanosecond after lines
    84-85, when its timer has expired and line 90 has recorded [startTime]. *)
Definition first_request_state (st : state) (s : ptr) (c : cell) : state :=
  mkState (now st + time.Nanosecond)
          (<[s := mkCell (obj c)
                    (L91 (time.mkTimer None (mkChan 1 [])) (now st + time.Nanosecond))]>
             (heap st))
          (scheduler st) (consumer st).

(** A Schedule is registered while the job of another one is running, which
    then takes 1000 seconds more. *)
Definition working_actions : list action :=
  [CallAddSchedule 1%nat 20; LoopStart 0%nat; Tick 1; TimerExpire 0%nat;
   LoopTimer 0%nat; LoopSend 0%nat; WorkerRecv].
Definition working_state : state :=
  Eval vm_compute in fst (outcome (exec working_actions (New 0))).
Definition working_trace : list event :=
  Eval vm_compute in snd (outcome (exec working_actions (New 0))).

Definition late_first_run : list action :=
  [CallAddSchedule 2%nat 30; LoopStart 1%nat; Tick 1; TimerExpire 1%nat;
   LoopTimer 1%nat; LoopSend 1%nat; Tick 1000000000000;
   WorkerReturn; WorkerConfirm; WorkerRecv].
Definition late_state : state :=
  Eval vm_compute in fst (outcome (exec late_first_run working_state)).
Definition late_trace : list event :=
  Eval vm_compute in snd (outcome (exec late_first_run working_state)).

(** * Properties *)


(** The account of a Schedule follows from the account before the step. *)
Ltac account IH :=
  first [destruct IH as (? & ? & ? & ?) | destruct IH as (? & ? & ?)];
  repeat split; lia.

(** Case analysis of a successful step, down to the source lines taken. *)
Ltac step_cases H :=
  unfold step, scheduleLoop, workerLoop in H;
  repeat match type of H with
         | context [match ?x with _ => _ end] => destruct x eqn:?; simpl in H
         | context [mbind _ ?x] => destruct x eqn:?; simpl in H
         | None = Some _ => discriminate H
         | Some _ = Some _ => injection H as <- <-
         end.

(** ** Executions *)

Lemma exec_app acts1 acts2 st :
  exec (acts1 ++ acts2) st =
  '(st1, ev1) ← exec acts1 st;
  '(st2, ev2) ← exec acts2 st1;
  Some (st2, ev1 ++ ev2).
Proof.
  revert st. induction acts1 as [|a acts1 IH]; intros st; simpl.
  - destruct (exec acts2 st) as [[st2 ev2]|]; reflexivity.
  - destruct (step a st) as [[st1 ev1]|]; simpl; [|reflexivity].
    rewrite IH. destruct (exec acts1 st1) as [[st1' ev1']|]; simpl; [|reflexivity].
    destruct (exec acts2 st1') as [[st2 ev2]|]; simpl; [|reflexivity].
    by rewrite app_assoc.
Qed.

Lemma exec_snoc acts a st st' evs :
  exec (acts ++ [a]) st = Some (st', evs) →
  ∃ st1 ev1 ev2,
    exec acts st = Some (st1, ev1) ∧ step a st1 = Some (st', ev2) ∧ evs = ev1 ++ ev2.
Proof.
  rewrite exec_app. destruct (exec acts st) as [[st1 ev1]|]; simpl; [|done].
  destruct (step a st1) as [[st2 ev2]|] eqn:Hst; simpl; [|done].
  intros [= <- <-]. exists st1, ev1, ev2. by rewrite app_nil_r.
Qed.

Lemma reachable_New t0 : reachable t0 (New t0) [].
Proof. by exists []. Qed.

Lemma reachable_step t0 st evs a st' ev :
  reachable t0 st evs → step a st = Some (st', ev) → reachable t0 st' (evs ++ ev).
Proof.
  intros [acts Hex] Hst. exists (acts ++ [a]).
  rewrite exec_app, Hex. simpl. rewrite Hst. simpl. by rewrite app_nil_r.
Qed.

(** Induction over the executions of the program, last step last. *)
Lemma reachable_induction t0 (P : state → list event → Prop) :
  P (New t0) [] →
  (∀ st evs a st' ev,
     reachable t0 st evs → P st evs → step a st = Some (st', ev) → P st' (evs ++ ev)) →
  ∀ st evs, reachable t0 st evs → P st evs.
Proof.
  intros H0 Hstep st evs [acts Hex]. revert st evs Hex.
  induction acts as [|a acts IH] using rev_ind; intros st evs Hex.
  - simpl in Hex. by injection Hex as <- <-.
  - apply exec_snoc in Hex as (st1 & ev1 & ev2 & Hex & Hst & ->).
    eapply Hstep; [by exists acts | by apply IH | done].
Qed.

(** ** Channels and counting *)

Lemma send_Some {A} (x : A) c c' :
  send x c = Some c' →
  (length (buf c) < cap c)%nat ∧ c' = mkChan (cap c) (buf c ++ [x]).
Proof.
  unfold send. destruct (Nat.ltb_spec (length (buf c)) (cap c)); [|done].
  by intros [= <-].
Qed.

Lemma send_free {A} (x : A) c :
  (length (buf c) < cap c)%nat → send x c = Some (mkChan (cap c) (buf c ++ [x])).
Proof.
  intros H. unfold send. by destruct (Nat.ltb_spec (length (buf c)) (cap c)); [|lia].
Qed.

Lemma send_full {A} (x : A) c :
  (cap c ≤ length (buf c))%nat → send x c = None.
Proof.
  intros H. unfold send. by destruct (Nat.ltb_spec (length (buf c)) (cap c)); [lia|].
Qed.

Lemma recv_Some {A} (c : chan A) x c' :
  recv c = Some (x, c') → buf c = x :: buf c' ∧ cap c' = cap c.
Proof. unfold recv. destruct (buf c); [done|]. by intros [= <- <-]. Qed.

Lemma queued_snoc n b p s :
  queued (mkChan n (b ++ [p])) s
  = (queued (mkChan n b) s + (if decide (p = s) then 1 else 0))%nat.
Proof.
  unfold queued. simpl. rewrite list.filter_app, length_app. f_equal.
  rewrite list.filter_cons. by destruct (decide (p = s)).
Qed.

Lemma queued_eta (ch : chan ptr) s : queued (mkChan (cap ch) (buf ch)) s = queued ch s.
Proof. reflexivity. Qed.

Lemma queued_absent ch s : s ∉ buf ch → queued ch s = 0%nat.
Proof.
  unfold queued. induction (buf ch) as [|p b IH]; [done|].
  intros [Hne Hs]%not_elem_of_cons. rewrite list.filter_cons.
  destruct (decide (p = s)); [congruence|]. by apply IH.
Qed.

Lemma holds_le w s : (holds w s ≤ 1)%nat.
Proof. destruct w; simpl; try case_decide; lia. Qed.

(** ** The invariant *)

Lemma inv_New t0 : inv (New t0).
Proof.
  constructor; simpl; try done.
  - lia.
  - intros p Hp. by apply elem_of_nil in Hp.
Qed.

(** A step that rewrites the cell at [s] and hands the run of [s] between
    that cell, [jobch] and the worker goroutine keeps the invariant, if the
    tokens of [s] still add up and nothing moves for the other Schedules. *)
Lemma inv_transfer st st' s c c' :
  inv st → heap st !! s = Some c →
  now st ≤ now st' →
  heap st' = <[s := c']> (heap st) →
  schedules (scheduler st') = schedules (scheduler st) →
  cap (jobch (scheduler st')) = 1%nat →
  (length (buf (jobch (scheduler st'))) ≤ 1)%nat →
  (∀ p, p ∈ buf (jobch (scheduler st')) → allocated st p) →
  (∀ p, holds (consumer st') p = 1%nat → allocated st p) →
  cell_ok (jobch (scheduler st')) (consumer st') s c' →
  (∀ p, p ≠ s →
     (queued (jobch (scheduler st')) p + holds (consumer st') p
      = queued (jobch (scheduler st)) p + holds (consumer st) p)%nat) →
  inv st'.
Proof.
  intros [Hcap Hlen Hq Hh Hs Hc] Hl _ Hheap Hsch Hcap' Hlen' Hq' Hh' Hok Hother.
  assert (Hsize : length (heap st') = length (heap st))
    by (rewrite Hheap; apply length_insert).
  constructor; unfold allocated in *; try done.
  - intros p Hp. rewrite Hsize. by apply Hq'.
  - intros p Hp. rewrite Hsize. by apply Hh'.
  - by rewrite Hsch, Hsize.
  - intros p d. rewrite Hheap. intros Hp.
    apply list_lookup_insert_Some in Hp as [(-> & <- & _)|(Hne & Hp)]; [done|].
    destruct (Hc p d Hp) as (H1 & H2 & H3). repeat split; try done.
    unfold tokens in *. specialize (Hother p (not_eq_sym Hne)). lia.
Qed.

Lemma inv_AddSchedule w iv st : inv st → inv (AddSchedule w iv st).
Proof.
  intros [Hcap Hlen Hq Hh Hs Hc].
  constructor; unfold allocated in *; simpl; try done.
  - intros p Hp. rewrite length_app. specialize (Hq p Hp). simpl. lia.
  - intros p Hp. rewrite length_app. specialize (Hh p Hp). simpl. lia.
  - rewrite length_app, Hs. simpl. by rewrite Nat.add_1_r, seq_S.
  - intros s c Hl. apply lookup_app_Some in Hl as [Hl|[Hge Hl]]; [by apply Hc|].
    apply list_lookup_singleton_Some in Hl as [Hz <-].
    assert (s = length (heap st)) as -> by lia.
    repeat split; try done. unfold tokens, started, pending, confirmed. simpl.
    rewrite queued_absent by (intros Hin; specialize (Hq _ Hin); lia).
    pose proof (holds_le (consumer st) (length (heap st))) as Hle.
    destruct (decide (holds (consumer st) (length (heap st)) = 1%nat)) as [H1|H1].
    + specialize (Hh _ H1). lia.
    + lia.
Qed.

Lemma expire_Some tm clock tm' :
  time.expire tm clock = Some tm' →
  ∃ t, time.when tm = Some t ∧ t ≤ clock
       ∧ tm' = time.mkTimer None (default (time.C tm) (send clock (time.C tm))).
Proof.
  unfold time.expire. destruct (time.when tm) as [t|]; [|done].
  destruct (Z.leb_spec t clock); [|done]. intros [= <-]. by exists t.
Qed.

Lemma expire_pending tm clock tm' :
  time.expire tm clock = Some tm' →
  cap (time.C tm) = 1%nat → (timer_pending tm ≤ 1)%nat →
  cap (time.C tm') = 1%nat ∧ timer_pending tm' = timer_pending tm.
Proof.
  intros (t & Hw & _ & ->)%expire_Some Hcap Hle.
  unfold timer_pending in *. rewrite Hw in *. simpl.
  rewrite send_free by lia. simpl. rewrite length_app. simpl. split; [done|lia].
Qed.

Lemma inv_step a st st' ev : inv st → step a st = Some (st', ev) → inv st'.
Proof.
  intros Hinv Hst. pose proof Hinv as [Hcap Hlen Hq Hh Hs Hc].
  destruct a as [d|w iv|s|s|s|s|s| | |]; simpl in Hst.
  - (* the clock *)
    destruct (0 <=? d); [|done]. injection Hst as <- <-. by constructor.
  - (* AddSchedule *)
    destruct (int64b iv); [|done]. injection Hst as <- <-. by apply inv_AddSchedule.
  - (* lines 84-85 *)
    destruct (heap st !! s) as [c|] eqn:Hl; simpl in Hst; [|done].
    unfold scheduleLoop in Hst. destruct (task c) eqn:Ht; [|done..].
    injection Hst as <- <-. destruct (Hc s c Hl) as (H1 & H2 & H3).
    eapply (inv_transfer st _ s c); try done; simpl; try lia.
    unfold cell_ok, tokens, started, pending, confirmed, timer_cap in *.
    rewrite Ht in *. simpl. repeat split; try done. unfold timer_pending. simpl. lia.
  - (* the timer expires *)
    destruct (heap st !! s) as [c|] eqn:Hl; simpl in Hst; [|done].
    unfold scheduleLoop in Hst. destruct (Hc s c Hl) as (H1 & H2 & H3).
    unfold cell_ok, tokens, started, pending, confirmed, timer_cap in *.
    destruct (task c) as [|tm t0|tm t0] eqn:Ht; [done| |];
      (destruct (time.expire tm (now st)) as [tm'|] eqn:He; simpl in Hst; [|done]);
      injection Hst as <- <-;
      (apply expire_pending in He as [He1 He2]; [|done|lia]);
      (eapply (inv_transfer st _ s c); try done; simpl; try lia);
      unfold cell_ok, tokens, started, pending, confirmed, timer_cap; simpl;
      repeat split; try done; lia.
  - (* lines 88-90 *)
    destruct (heap st !! s) as [c|] eqn:Hl; simpl in Hst; [|done].
    unfold scheduleLoop in Hst. destruct (Hc s c Hl) as (H1 & H2 & H3).
    unfold cell_ok, tokens, started, pending, confirmed, timer_cap in *.
    destruct (task c) as [|tm t0|tm t0] eqn:Ht; [done| |done].
    destruct (recv (time.C tm)) as [[v ch]|] eqn:Hr; simpl in Hst; [|done].
    injection Hst as <- <-. apply recv_Some in Hr as [Hb Hcp].
    eapply (inv_transfer st _ s c); try done; simpl; try lia.
    unfold cell_ok, tokens, started, pending, confirmed, timer_cap, timer_pending in *.
    simpl. rewrite Hb in H3. simpl in H3. repeat split; try done; [congruence|lia].
  - (* line 91 *)
    destruct (heap st !! s) as [c|] eqn:Hl; simpl in Hst; [|done].
    unfold scheduleLoop in Hst. destruct (Hc s c Hl) as (H1 & H2 & H3).
    unfold cell_ok, tokens, started, pending, confirmed, timer_cap in *.
    destruct (task c) as [|tm t0|tm t0] eqn:Ht; [done|done|].
    destruct (send s (jobch (scheduler st))) as [ch|] eqn:Hsd; simpl in Hst; [|done].
    injection Hst as <- <-. apply send_Some in Hsd as [Hlt ->].
    assert (Hnil : buf (jobch (scheduler st)) = []).
    { destruct (buf (jobch (scheduler st))); [done|]. simpl in Hlt. lia. }
    eapply (inv_transfer st _ s c); try done; simpl.
    + rewrite Hnil. simpl. lia.
    + rewrite Hnil. simpl. intros p ->%list_elem_of_singleton.
      by apply lookup_lt_Some in Hl.
    + unfold cell_ok, tokens, started, pending, confirmed, timer_cap. simpl.
      rewrite queued_snoc, queued_eta. rewrite decide_True by done.
      repeat split; try done. lia.
    + intros p Hp. rewrite queued_snoc, queued_eta. rewrite decide_False by done. lia.
  - (* lines 96-102 *)
    destruct (heap st !! s) as [c|] eqn:Hl; simpl in Hst; [|done].
    unfold scheduleLoop in Hst. destruct (Hc s c Hl) as (H1 & H2 & H3).
    unfold cell_ok, tokens, started, pending, confirmed, timer_cap in *.
    destruct (task c) as [|tm t0|tm t0] eqn:Ht; [done| |done].
    destruct (recv (confirmationChannel (obj c))) as [[v ch]|] eqn:Hr;
      simpl in Hst; [|done].
    injection Hst as <- <-. apply recv_Some in Hr as [Hb Hcp].
    eapply (inv_transfer st _ s c); try done; simpl; try lia.
    unfold cell_ok, tokens, started, pending, confirmed, timer_cap, timer_pending in *.
    simpl. rewrite Hb in H3. simpl in H3. repeat split; try done; [congruence|].
    destruct (time.when tm); lia.
  - (* line 52 *)
    unfold workerLoop in Hst. destruct (consumer st) eqn:Hw; [|done..].
    destruct (recv (jobch (scheduler st))) as [[p ch]|] eqn:Hr; simpl in Hst; [|done].
    injection Hst as <- <-. apply recv_Some in Hr as [Hb Hcp].
    assert (Hp : allocated st p) by (apply Hq; rewrite Hb; by left).
    apply lookup_lt_is_Some_2 in Hp as [c Hl]. destruct (Hc p c Hl) as (H1 & H2 & H3).
    assert (Hch : buf ch = []).
    { rewrite Hb in Hlen. destruct (buf ch); [done|]. simpl in Hlen. lia. }
    assert (Hqd : ∀ q, queued (jobch (scheduler st)) q
                       = ((if decide (p = q) then 1 else 0) + queued ch q)%nat).
    { intros q. unfold queued. rewrite Hb, list.filter_cons. by destruct (decide (p = q)). }
    eapply (inv_transfer st _ p c c); try done; simpl.
    + by rewrite list_insert_id.
    + congruence.
    + rewrite Hch. simpl. lia.
    + rewrite Hch. intros q Hin. by apply elem_of_nil in Hin.
    + intros q Hh'. case_decide; [|done]. subst q. by apply lookup_lt_Some in Hl.
    + unfold cell_ok, tokens in *. simpl in *.
      rewrite Hqd in H3. rewrite decide_True in * by done. repeat split; try done. lia.
    + intros q Hne. rewrite Hqd, Hw. rewrite !decide_False by done. simpl. lia.
  - (* line 53 returns *)
    unfold workerLoop in Hst. destruct (consumer st) as [|p|p] eqn:Hw; [done| |done].
    injection Hst as <- <-.
    assert (Hp : allocated st p) by (apply Hh; simpl; by rewrite decide_True).
    apply lookup_lt_is_Some_2 in Hp as [c Hl]. destruct (Hc p c Hl) as (H1 & H2 & H3).
    eapply (inv_transfer st _ p c c); try done; simpl; try lia.
    + by rewrite list_insert_id.
    + intros q _. by rewrite Hw.
  - (* line 54 *)
    unfold workerLoop in Hst. destruct (consumer st) as [|p|p] eqn:Hw; [done|done|].
    destruct (heap st !! p) as [c|] eqn:Hl; simpl in Hst; [|done].
    destruct (send true (confirmationChannel (obj c))) as [ch|] eqn:Hsd;
      simpl in Hst; [|done].
    injection Hst as <- <-. apply send_Some in Hsd as [Hlt ->].
    destruct (Hc p c Hl) as (H1 & H2 & H3).
    eapply (inv_transfer st _ p c); try done; simpl; try lia.
    + unfold cell_ok, tokens, started, pending, confirmed, timer_cap in *.
      simpl in *. rewrite decide_True in * by done.
      rewrite length_app. simpl. repeat split; try done. destruct (task c); lia.
    + intros q Hne. rewrite Hw. simpl. rewrite decide_False by done. lia.
Qed.

Lemma reachable_inv t0 st evs : reachable t0 st evs → inv st.
Proof.
  revert st evs. apply reachable_induction; [apply inv_New|].
  intros st evs a st' ev _ Hinv Hst. by eapply inv_step.
Qed.

(** ** What one step does to the trace *)

Lemma step_now a st st' ev : step a st = Some (st', ev) → now st ≤ now st'.
Proof.
  intros H. destruct a; step_cases H; simpl; lia.
Qed.

Lemma step_single a st st' ev : step a st = Some (st', ev) → (length ev ≤ 1)%nat.
Proof. intros H. destruct a; step_cases H; simpl; lia. Qed.

Lemma step_worker_trace a st st' ev :
  step a st = Some (st', ev) → worker_trace (consumer st) ev = Some (consumer st').
Proof.
  intros H. destruct a; step_cases H; simpl; try done;
    repeat match goal with E : consumer _ = _ |- _ => rewrite E end; simpl;
    rewrite ?decide_True by done; done.
Qed.

Lemma step_in_progress a st st' ev :
  step a st = Some (st', ev) →
  in_progress ev (running (consumer st)) = running (consumer st').
Proof.
  intros H. destruct a; step_cases H; simpl; try done;
    repeat match goal with E : consumer _ = _ |- _ => rewrite E end; simpl; try done.
  destruct (decide_rel elem_of schedule [schedule]) as [|Hn]; [done|].
  exfalso. apply Hn. by left.
Qed.

Lemma step_work_times a st st' ev :
  step a st = Some (st', ev) → Forall (λ t, t = now st) (work_times ev).
Proof.
  intros H. destruct a; step_cases H; simpl; repeat constructor.
Qed.

Lemma step_arms a st st' ev s d :
  step a st = Some (st', ev) → EArm s d ∈ ev →
  d = time.Nanosecond
  ∨ ∃ c tm start, heap st !! s = Some c ∧ task c = L87 tm start
      ∧ a = LoopConfirmed s
      ∧ d = waitTime (interval (obj c)) (time.Since (now st) start).
Proof.
  intros H Hin. destruct a; step_cases H;
    try (by apply elem_of_nil in Hin);
    apply list_elem_of_singleton in Hin; try discriminate Hin.
  - left. by injection Hin as _ ->.
  - right. injection Hin as -> ->. eauto 10.
Qed.

Lemma worker_trace_app w evs1 evs2 :
  worker_trace w (evs1 ++ evs2) = w' ← worker_trace w evs1; worker_trace w' evs2.
Proof.
  revert w. induction evs1 as [|e evs1 IH]; intros w; simpl; [done|].
  destruct (worker_event w e); simpl; [apply IH|done].
Qed.

Lemma in_progress_app evs1 evs2 r :
  in_progress (evs1 ++ evs2) r = in_progress evs2 (in_progress evs1 r).
Proof.
  revert r. induction evs1 as [|e evs1 IH]; intros r; simpl; [done|].
  destruct e; apply IH.
Qed.

Lemma work_times_app evs1 evs2 :
  work_times (evs1 ++ evs2) = work_times evs1 ++ work_times evs2.
Proof. apply omap_app. Qed.

Lemma work_times_length evs : (length (work_times evs) ≤ length evs)%nat.
Proof.
  induction evs as [|e evs IH]; simpl; [lia|].
  unfold work_times in *. simpl. destruct e; simpl; lia.
Qed.

Lemma arms_app s evs1 evs2 : arms s (evs1 ++ evs2) = arms s evs1 ++ arms s evs2.
Proof. apply omap_app. Qed.


Lemma Sorted_snoc (l : list Z) (t : Z) :
  Sorted Z.le l → Forall (λ u, u ≤ t) l → Sorted Z.le (l ++ [t]).
Proof.
  induction l as [|u l IH]; intros Hs Hf; simpl.
  - repeat constructor.
  - apply Sorted_inv in Hs as [Hs Hhd]. apply Forall_cons_1 in Hf as [Hu Hf].
    constructor; [by apply IH|].
    destruct l as [|v l]; simpl; constructor; [done|].
    by apply HdRel_inv in Hhd.
Qed.

(** The trace of an execution tells where the worker goroutine stands, which
    job is inside [PerformWork], and carries the clock readings in order. *)
Lemma reachable_worker t0 st evs :
  reachable t0 st evs →
  worker_trace W52 evs = Some (consumer st)
  ∧ in_progress evs [] = running (consumer st)
  ∧ Sorted Z.le (work_times evs)
  ∧ Forall (λ t, t ≤ now st) (work_times evs).
Proof.
  revert st evs. apply reachable_induction; [by repeat split; constructor|].
  intros st evs a st' ev _ (Hw & Hr & Hs & Hf) Hst.
  pose proof (step_now _ _ _ _ Hst) as Hnow.
  pose proof (step_work_times _ _ _ _ Hst) as Ht.
  repeat split.
  - rewrite worker_trace_app, Hw. simpl. by eapply step_worker_trace.
  - rewrite in_progress_app, Hr. by eapply step_in_progress.
  - rewrite work_times_app. pose proof (step_single _ _ _ _ Hst) as Hlen.
    destruct (work_times ev) as [|t [|t' l]] eqn:Hwt.
    + by rewrite app_nil_r.
    + apply Forall_cons_1 in Ht as [-> _]. by apply Sorted_snoc.
    + exfalso. pose proof (work_times_length ev).
      rewrite Hwt in *. simpl in *. lia.
  - rewrite work_times_app. apply Forall_app. split.
    + eapply List.Forall_impl; [|exact Hf]. simpl. intros. lia.
    + eapply List.Forall_impl; [|exact Ht]. simpl. intros. lia.
Qed.

Lemma reachable_prefix t0 st evs :
  reachable t0 st evs → ∀ evs1 evs2, evs = evs1 ++ evs2 → ∃ st1, reachable t0 st1 evs1.
Proof.
  revert st evs.
  apply (reachable_induction t0
           (λ _ evs, ∀ evs1 evs2, evs = evs1 ++ evs2 → ∃ st1, reachable t0 st1 evs1)).
  - intros evs1 evs2 Heq. symmetry in Heq. apply app_eq_nil in Heq as [-> _].
    exists (New t0). apply reachable_New.
  - intros st evs a st' ev Hr IH Hst evs1 evs2 Heq.
    pose proof (step_single _ _ _ _ Hst) as Hlen.
    destruct ev as [|e [|e' ev]]; simpl in Hlen; [| |lia].
    + rewrite app_nil_r in Heq. by eapply IH.
    + destruct evs2 as [|e2 evs2 _] using rev_ind.
      * rewrite app_nil_r in Heq. subst evs1. exists st'. by eapply reachable_step.
      * rewrite app_assoc in Heq. apply app_inj_tail in Heq as [Heq _]. by eapply IH.
Qed.

(** ** A Scheduler with two Schedules, one job running and one queued

    Two Schedules are registered and started; both timers expire; the first
    Schedule dispatches itself and is taken by the worker goroutine; the
    second Schedule then dispatches itself while the first job is still
    inside [PerformWork]. *)

Lemma busy_reachable : reachable 0 busy_state busy_trace.
Proof. exists (busy_start ++ [LoopSend 1%nat]). vm_compute. reflexivity. Defined.

Lemma served_reachable : reachable 0 served_state served_trace.
Proof. exists busy_start. vm_compute. reflexivity. Defined.

(** ** Serialization *)

(** C3. At every instant of every execution at most one job is inside
    [PerformWork]: after every prefix of the trace of an execution, the jobs
    entered and not yet left are at most one, and the clock readings of the
    calls and returns of [PerformWork] are in order along the trace, so the
    return of one job is never later than the call of the next. *)
Theorem serialization t0 st evs :
  reachable t0 st evs →
  (∀ evs1 evs2, evs = evs1 ++ evs2 → (length (in_progress evs1 []) ≤ 1)%nat)
  ∧ Sorted Z.le (work_times evs).
Proof.
  intros Hr. split.
  - intros evs1 evs2 Heq.
    destruct (reachable_prefix _ _ _ Hr _ _ Heq) as [st1 Hr1].
    apply reachable_worker in Hr1 as (_ & -> & _).
    destruct (consumer st1); simpl; lia.
  - by apply reachable_worker in Hr as (_ & _ & Hs & _).
Qed.

Lemma serialization_witness :
  (∀ evs1 evs2, busy_trace = evs1 ++ evs2 → (length (in_progress evs1 []) ≤ 1)%nat)
  ∧ Sorted Z.le (work_times busy_trace).
Proof. exact (serialization 0 busy_state busy_trace busy_reachable). Defined.

(** ** One run of a Schedule at a time *)

(** C4. In every reachable state a Schedule has at most one dispatch out
    whose confirmation its goroutine has not received (queued on [jobch],
    held by the worker goroutine, or confirmed and not yet received), and
    while its timer is armed or has expired unread, or its goroutine stands
    before the send of line 91, it has none: the timer is re-armed only by
    the receive from the Schedule's own [confirmationChannel]. *)
Theorem no_duplicate_dispatch t0 st evs s c :
  reachable t0 st evs → heap st !! s = Some c →
  (outstanding st s c ≤ 1)%nat
  ∧ ((0 < pending c)%nat → outstanding st s c = 0%nat)
  ∧ (∀ a st' ev d, step a st = Some (st', ev) → EArm s d ∈ ev →
       a = LoopStart s ∧ task c = L84
       ∨ a = LoopConfirmed s ∧ outstanding st s c = 1%nat
         ∧ ∃ v ch, recv (confirmationChannel (obj c)) = Some (v, ch)).
Proof.
  intros Hr Hl. apply reachable_inv in Hr as [_ _ _ _ _ Hc].
  destruct (Hc s c Hl) as (H1 & H2 & H3).
  unfold tokens, outstanding, started in *. repeat split.
  - destruct (task c); lia.
  - destruct (task c); lia.
  - intros a st' ev d Hst Hin.
    destruct a; step_cases Hst;
      try (by apply elem_of_nil in Hin);
      apply list_elem_of_singleton in Hin; try discriminate Hin;
      injection Hin as -> ?; subst.
    + left. split; [done|]. congruence.
    + right. split; [done|].
      assert (c0 = c) as -> by congruence.
      match goal with E : recv _ = Some _ |- _ => pose proof E as Hrv;
        apply recv_Some in E as [Hb _] end.
      split; [|eauto]. unfold confirmed in *. rewrite Hb in *. simpl in *.
      destruct (task c); lia.
Qed.

Lemma no_duplicate_dispatch_witness :
  (outstanding busy_state 1%nat busy_cell ≤ 1)%nat
  ∧ ((0 < pending busy_cell)%nat → outstanding busy_state 1%nat busy_cell = 0%nat)
  ∧ (∀ a st' ev d, step a busy_state = Some (st', ev) → EArm 1%nat d ∈ ev →
       a = LoopStart 1%nat ∧ task busy_cell = L84
       ∨ a = LoopConfirmed 1%nat ∧ outstanding busy_state 1%nat busy_cell = 1%nat
         ∧ ∃ v ch, recv (confirmationChannel (obj busy_cell)) = Some (v, ch)).
Proof.
  exact (no_duplicate_dispatch 0 busy_state busy_trace 1%nat busy_cell
           busy_reachable eq_refl).
Defined.

(** ** The consumer loop *)

(** C7. [New] returns a Scheduler with no Schedules and an empty [jobch] of
    capacity 1, with the worker goroutine at its receive.  In every
    execution the worker goroutine goes round its loop for ever: its events
    in the trace are receive-and-call, return, confirm, in this order and
    for one Schedule at a time; at line 52 it takes the Schedule at the head
    of [jobch] and calls its worker; when [PerformWork] returns, nothing has
    been confirmed yet; and the send of line 54 never blocks, puts the
    confirmation on the channel of that very Schedule, changes no other
    Schedule and brings the goroutine back to line 52. *)
Theorem New_consumer_loop t0 st evs :
  reachable t0 st evs →
  New t0 = mkState t0 [] (mkScheduler [] (mkChan 1 [])) W52
  ∧ worker_trace W52 evs = Some (consumer st)
  ∧ match consumer st with
    | W52 =>
        ∀ p rest, buf (jobch (scheduler st)) = p :: rest →
          ∃ st', step WorkerRecv st = Some (st', [EEnter p (now st)])
                 ∧ consumer st' = W53 p ∧ heap st' = heap st
    | W53 p =>
        ∃ st', step WorkerReturn st = Some (st', [EExit p (now st)])
               ∧ consumer st' = W54 p ∧ heap st' = heap st
    | W54 p =>
        ∃ st' c, step WorkerConfirm st = Some (st', [EAck p])
                 ∧ consumer st' = W52
                 ∧ heap st !! p = Some c
                 ∧ buf (confirmationChannel (obj c)) = []
                 ∧ heap st' = <[p := mkCell (mkSchedule (interval (obj c)) (worker (obj c))
                                                        (mkChan 1 [true]))
                                            (task c)]> (heap st)
    end.
Proof.
  intros Hr. split; [done|].
  pose proof (reachable_worker _ _ _ Hr) as (Hwt & _). split; [done|]. clear Hwt.
  apply reachable_inv in Hr as [_ _ _ Hh _ Hc].
  simpl. unfold workerLoop. destruct (consumer st) as [|p|p] eqn:Hw.
  - intros p rest Hb. unfold recv. rewrite Hb. simpl. eauto.
  - eauto.
  - assert (Hp : allocated st p) by (apply Hh; simpl; by rewrite decide_True).
    apply lookup_lt_is_Some_2 in Hp as [c Hl]. destruct (Hc p c Hl) as (H1 & H2 & H3).
    unfold tokens, started, confirmed in H3. simpl in H3.
    rewrite decide_True in H3 by done.
    assert (Hb : buf (confirmationChannel (obj c)) = []).
    { destruct (buf (confirmationChannel (obj c))); [done|].
      simpl in H3. destruct (task c); lia. }
    eexists _, c. rewrite Hl. simpl. rewrite send_free by (rewrite Hb, H1; simpl; lia).
    simpl. rewrite Hb, H1. done.
Qed.

Lemma New_consumer_loop_witness :
  New 0 = mkState 0 [] (mkScheduler [] (mkChan 1 [])) W52
  ∧ worker_trace W52 busy_trace = Some (consumer busy_state)
  ∧ ∃ st', step WorkerReturn busy_state = Some (st', [EExit 0%nat (now busy_state)])
           ∧ consumer st' = W54 0%nat ∧ heap st' = heap busy_state.
Proof. exact (New_consumer_loop 0 busy_state busy_trace busy_reachable). Defined.

(** ** Registration *)

(** C9. [AddSchedule] never blocks and returns with the goroutine of the new
    Schedule spawned and not yet run.  It adds one Schedule, at a fresh
    address, holding the given worker and interval and an empty confirmation
    channel of capacity 1; it appends that address to [schedules], after the
    entries that were there, which keep their order; it changes no other
    Schedule, nor [jobch], the worker goroutine or the clock. *)
Theorem AddSchedule_frame t0 st evs w iv :
  reachable t0 st evs → int64 iv →
  let s := length (heap st) in
  let st' := AddSchedule w iv st in
  step (CallAddSchedule w iv) st = Some (st', [])
  ∧ schedules (scheduler st') = schedules (scheduler st) ++ [s]
  ∧ (s ∉ schedules (scheduler st))
  ∧ heap st !! s = None
  ∧ heap st' !! s = Some (mkCell (mkSchedule iv w (mkChan 1 [])) L84)
  ∧ (∀ p, p ≠ s → heap st' !! p = heap st !! p)
  ∧ jobch (scheduler st') = jobch (scheduler st)
  ∧ consumer st' = consumer st
  ∧ now st' = now st.
Proof.
  intros Hr [Hlo Hhi]. apply reachable_inv in Hr as [_ _ _ _ Hs _]. simpl.
  repeat split.
  - unfold int64b. apply Z.leb_le in Hlo, Hhi. by rewrite Hlo, Hhi.
  - rewrite Hs. intros Hin%elem_of_seq. lia.
  - by apply lookup_ge_None.
  - rewrite lookup_app_r by done. by rewrite Nat.sub_diag.
  - intros p Hne. destruct (decide (p < length (heap st))%nat) as [Hlt|Hge].
    + by rewrite lookup_app_l.
    + rewrite lookup_app_r by lia. rewrite (lookup_ge_None_2 (heap st)) by lia.
      destruct (p - length (heap st))%nat eqn:Hd; [lia|done].
Qed.

Lemma AddSchedule_frame_witness :
  let s := length (heap busy_state) in
  let st' := AddSchedule 3%nat 50 busy_state in
  step (CallAddSchedule 3%nat 50) busy_state = Some (st', [])
  ∧ schedules (scheduler st') = schedules (scheduler busy_state) ++ [s]
  ∧ (s ∉ schedules (scheduler busy_state))
  ∧ heap busy_state !! s = None
  ∧ heap st' !! s = Some (mkCell (mkSchedule 50 3%nat (mkChan 1 [])) L84)
  ∧ (∀ p, p ≠ s → heap st' !! p = heap busy_state !! p)
  ∧ jobch (scheduler st') = jobch (scheduler busy_state)
  ∧ consumer st' = consumer busy_state
  ∧ now st' = now busy_state.
Proof.
  apply (AddSchedule_frame 0 busy_state busy_trace 3%nat 50 busy_reachable).
  unfold int64, min_int64, max_int64. lia.
Defined.

(** ** Arming the timer *)

Lemma lookup_set_cell s c st :
  allocated st s → heap (set_cell s c st) !! s = Some c.
Proof. intros H. simpl. by apply list_lookup_insert_eq. Qed.

(** A goroutine leaves line 84 only by arming its timer. *)
Lemma step_leaves_L84 a st st' ev s c' :
  step a st = Some (st', ev) → heap st' !! s = Some c' → task c' ≠ L84 →
  (∃ c, heap st !! s = Some c ∧ task c ≠ L84) ∨ ev = [EArm s time.Nanosecond].
Proof.
  intros H Hl Hne.
  destruct a; step_cases H; simpl in Hl;
    try (left; by exists c');
    try (apply list_lookup_insert_Some in Hl as [(<- & <- & _)|(_ & Hl)];
         [|left; by exists c']).
  - apply lookup_app_Some in Hl as [Hl|[_ Hl]]; [left; by exists c'|].
    apply list_lookup_singleton_Some in Hl as [_ <-]. done.
  - by right.
  - left. eexists. split; [done|]. congruence.
  - left. eexists. split; [done|]. congruence.
  - left. eexists. split; [done|]. congruence.
  - left. eexists. split; [done|]. congruence.
  - left. eexists. split; [done|]. congruence.
  - left. eexists. split; [done|]. simpl in Hne. done.
Qed.

Lemma reachable_first_arm t0 st evs :
  reachable t0 st evs →
  ∀ s, (∀ c, heap st !! s = Some c → arms s evs = [] → task c = L84)
       ∧ (∀ d, head (arms s evs) = Some d → d = time.Nanosecond).
Proof.
  revert st evs.
  apply (reachable_induction t0
           (λ st evs, ∀ s,
              (∀ c, heap st !! s = Some c → arms s evs = [] → task c = L84)
              ∧ (∀ d, head (arms s evs) = Some d → d = time.Nanosecond))).
  - intros s. split; [by intros c Hl|by intros d Hd].
  - intros st evs a st' ev Hr IH Hst s. destruct (IH s) as [IH1 IH2].
    rewrite arms_app. split.
    + intros c' Hl [He1 He2]%app_eq_nil.
      assert (task c' = L84 ∨ task c' ≠ L84) as [|Hne]
        by (destruct (task c'); [by left|by right..]); [done|].
      destruct (step_leaves_L84 _ _ _ _ _ _ Hst Hl Hne) as [(c & Hc & Hn)| ->].
      * exfalso. apply Hn. by apply IH1.
      * simpl in He2. by rewrite decide_True in He2.
    + intros d Hd. destruct (arms s evs) as [|d0 l] eqn:Ha; [|by apply IH2].
      simpl in Hd. destruct (arms s ev) as [|d1 l1] eqn:Hev; [done|].
      simpl in Hd. injection Hd as ->.
      assert (Hin : EArm s d ∈ ev).
      { unfold arms in Hev. assert (Hd : d ∈ d :: l1) by by left.
        rewrite <- Hev in Hd. apply list_elem_of_omap in Hd as (e & He & Hx).
        destruct e; try done. case_decide; [|done]. by simplify_eq. }
      destruct (step_arms _ _ _ _ _ _ Hst Hin) as [|(c & tm & start & Hl & Ht & _)];
        [done|].
      specialize (IH1 c Hl eq_refl). congruence.
Qed.

Lemma wrap64_int64 z : int64 z → wrap64 z = z.
Proof.
  unfold int64, wrap64, min_int64, max_int64. intros H.
  rewrite Z.mod_small; lia.
Qed.


Lemma waitTime_nonneg iv passed : 0 ≤ waitTime iv passed.
Proof.
  unfold waitTime, time.Nanosecond.
  destruct (Z.ltb_spec (wrap64 (iv - passed)) 0); lia.
Qed.

Lemma waitTime_clamped iv passed :
  wrap64 (iv - passed) < 0 → waitTime iv passed = time.Nanosecond.
Proof.
  intros H. unfold waitTime. by destruct (Z.ltb_spec (wrap64 (iv - passed)) 0); [|lia].
Qed.


(** Lines 84-85 on a goroutine that has not run yet. *)
Lemma LoopStart_arms st s c :
  heap st !! s = Some c → task c = L84 →
  step (LoopStart s) st
  = Some (set_cell s (mkCell (obj c)
                        (L87 (time.mkTimer (Some (now st + 1)) (mkChan 1 [])) (now st))) st,
          [EArm s time.Nanosecond]).
Proof. intros Hl Ht. simpl. rewrite Hl. simpl. unfold scheduleLoop. by rewrite Ht. Qed.

(** Lines 96-102 on a goroutine at its select, with a confirmation waiting. *)
Lemma LoopConfirmed_arms st s c tm start v ch :
  heap st !! s = Some c → task c = L87 tm start →
  recv (confirmationChannel (obj c)) = Some (v, ch) →
  let w := waitTime (interval (obj c)) (time.Since (now st) start) in
  step (LoopConfirmed s) st
  = Some (set_cell s (mkCell (mkSchedule (interval (obj c)) (worker (obj c)) ch)
                        (L87 (time.mkTimer (Some (now st + w)) (time.C tm)) start)) st,
          [EArm s w]).
Proof.
  intros Hl Ht Hr. simpl. rewrite Hl. simpl. unfold scheduleLoop. rewrite Ht, Hr. done.
Qed.

Lemma reachable_arms t0 st evs :
  reachable t0 st evs → ∀ s d, EArm s d ∈ evs → 0 ≤ d.
Proof.
  revert st evs.
  apply (reachable_induction t0 (λ _ evs, ∀ s d, EArm s d ∈ evs → 0 ≤ d)).
  - intros s d Hin. by apply elem_of_nil in Hin.
  - intros st evs a st' ev _ IH Hst s d [Hin|Hin]%elem_of_app; [by eapply IH|].
    destruct (step_arms _ _ _ _ _ _ Hst Hin) as [->|(c & tm & start & _ & _ & _ & ->)].
    + unfold time.Nanosecond. lia.
    + apply waitTime_nonneg.
Qed.

Lemma first_request_exec st s c :
  heap st !! s = Some c →
  exec [Tick time.Nanosecond; TimerExpire s; LoopTimer s]
       (set_cell s (mkCell (obj c)
                      (L87 (time.mkTimer (Some (now st + 1)) (mkChan 1 [])) (now st))) st)
  = Some (first_request_state st s c, [EStart s (now st + time.Nanosecond)]).
Proof.
  intros Hl. apply lookup_lt_Some in Hl. simpl.
  rewrite list_lookup_insert_eq by done. simpl.
  unfold time.expire. simpl. rewrite Z.leb_refl. simpl.
  rewrite list_lookup_insert_eq by (by rewrite length_insert). simpl.
  unfold first_request_state, set_cell. simpl. by rewrite !list_insert_insert_eq.
Qed.

(** C6, as the code has it.  In every execution the first timer a Schedule
    arms is armed with one nanosecond, whatever its interval: a Schedule
    whose goroutine has not run yet is free to run lines 84-85, which arm
    the timer for the clock reading plus one nanosecond, and one nanosecond
    later the timer is due and the goroutine requests its first run (lines
    88-90).  The job itself is called at that instant when the worker
    goroutine is idle and [jobch] is empty.  Otherwise it has to wait: while
    the slot of [jobch] is taken the Schedule blocks at line 91, and while
    the worker goroutine is not at its receive the Schedule, once queued, is
    not taken. *)
Theorem first_run_when_worker_free t0 st evs s c :
  reachable t0 st evs → heap st !! s = Some c →
  (∀ d, head (arms s evs) = Some d → d = time.Nanosecond)
  ∧ (task c = L84 →
     let st1 := set_cell s (mkCell (obj c)
                  (L87 (time.mkTimer (Some (now st + time.Nanosecond)) (mkChan 1 []))
                       (now st))) st in
     let st2 := first_request_state st s c in
     step (LoopStart s) st = Some (st1, [EArm s time.Nanosecond])
     ∧ exec [Tick time.Nanosecond; TimerExpire s; LoopTimer s] st1
       = Some (st2, [EStart s (now st + time.Nanosecond)])
     ∧ (consumer st = W52 → buf (jobch (scheduler st)) = [] →
        ∃ st3, exec [LoopSend s; WorkerRecv] st2
               = Some (st3, [EDispatch s; EEnter s (now st + time.Nanosecond)])
               ∧ consumer st3 = W53 s)
     ∧ (buf (jobch (scheduler st)) ≠ [] → step (LoopSend s) st2 = None)
     ∧ (consumer st ≠ W52 →
        ∀ st3 ev, step (LoopSend s) st2 = Some (st3, ev) → step WorkerRecv st3 = None)).
Proof.
  intros Hr Hl. split; [by apply (reachable_first_arm _ _ _ Hr s)|].
  intros Ht st1 st2. subst st1 st2. pose proof (lookup_lt_Some _ _ _ Hl) as Hlt.
  apply reachable_inv in Hr as [Hcap Hlen _ _ _ _].
  split; [by apply LoopStart_arms|]. split; [by apply first_request_exec|].
  split; [|split].
  - intros Hw Hb. eexists. simpl. rewrite list_lookup_insert_eq by done. simpl.
    rewrite send_free by (simpl; rewrite Hb, Hcap; simpl; lia).
    simpl. unfold workerLoop. simpl. rewrite Hw, Hb. simpl. done.
  - intros Hb. simpl. rewrite list_lookup_insert_eq by done. simpl.
    rewrite send_full; [done|].
    simpl. rewrite Hcap. destruct (buf (jobch (scheduler st))); [done|simpl; lia].
  - intros Hw st3 ev Hst. simpl in Hst. rewrite list_lookup_insert_eq in Hst by done.
    simpl in Hst.
    destruct (send s (jobch (scheduler st))) as [ch|]; simpl in Hst; [|done].
    injection Hst as <- <-. simpl. unfold workerLoop. simpl.
    by destruct (consumer st).
Qed.

Lemma registered_reachable : reachable 0 registered_state [].
Proof. exists [CallAddSchedule 7%nat 3600000000000]. vm_compute. reflexivity. Defined.

Lemma first_run_when_worker_free_witness :
  (∀ d, head (arms 0%nat []) = Some d → d = time.Nanosecond)
  ∧ (task registered_cell = L84 →
     let st1 := set_cell 0%nat (mkCell (obj registered_cell)
                  (L87 (time.mkTimer (Some (now registered_state + time.Nanosecond))
                                     (mkChan 1 []))
                       (now registered_state))) registered_state in
     let st2 := first_request_state registered_state 0%nat registered_cell in
     step (LoopStart 0%nat) registered_state = Some (st1, [EArm 0%nat time.Nanosecond])
     ∧ exec [Tick time.Nanosecond; TimerExpire 0%nat; LoopTimer 0%nat] st1
       = Some (st2, [EStart 0%nat (now registered_state + time.Nanosecond)])
     ∧ (consumer registered_state = W52 → buf (jobch (scheduler registered_state)) = [] →
        ∃ st3, exec [LoopSend 0%nat; WorkerRecv] st2
               = Some (st3, [EDispatch 0%nat;
                             EEnter 0%nat (now registered_state + time.Nanosecond)])
               ∧ consumer st3 = W53 0%nat)
     ∧ (buf (jobch (scheduler registered_state)) ≠ [] → step (LoopSend 0%nat) st2 = None)
     ∧ (consumer registered_state ≠ W52 →
        ∀ st3 ev, step (LoopSend 0%nat) st2 = Some (st3, ev) →
                  step WorkerRecv st3 = None)).
Proof.
  exact (first_run_when_worker_free 0 registered_state [] 0%nat registered_cell
           registered_reachable eq_refl).
Defined.

(** C6 as stated fails while the worker goroutine is busy: a Schedule
    registered at clock reading 1, while the job of another Schedule is
    inside [PerformWork] for another 1000 seconds, arms its first timer with
    one nanosecond and is queued at clock reading 2, but its job is first
    called at clock reading 1000000000002. *)
Lemma first_run_waits_for_worker :
  reachable 0 working_state working_trace
  ∧ now working_state = 1
  ∧ consumer working_state = W53 0%nat
  ∧ heap working_state !! 1%nat = None
  ∧ exec late_first_run working_state = Some (late_state, late_trace)
  ∧ arms 1%nat late_trace = [time.Nanosecond]
  ∧ start_times 1%nat late_trace = [2]
  ∧ starts 1%nat late_trace = [1000000000002].
Proof.
  split.
  - exists working_actions. vm_compute. reflexivity.
  - repeat split; vm_compute; reflexivity.
Qed.

(** C10. The minimal duration is [time.Nanosecond], one nanosecond, in both
    places: lines 84-85 arm the new timer with exactly 1 ns, and lines
    96-102 re-arm it with exactly 1 ns whenever the computed wait is
    negative. *)
Theorem minimal_duration_one_nanosecond st s c :
  heap st !! s = Some c →
  time.Nanosecond = 1
  ∧ (task c = L84 →
     step (LoopStart s) st
     = Some (set_cell s (mkCell (obj c)
                           (L87 (time.mkTimer (Some (now st + 1)) (mkChan 1 [])) (now st))) st,
             [EArm s 1]))
  ∧ (∀ tm start v ch,
       task c = L87 tm start →
       recv (confirmationChannel (obj c)) = Some (v, ch) →
       wrap64 (interval (obj c) - time.Since (now st) start) < 0 →
       step (LoopConfirmed s) st
       = Some (set_cell s (mkCell (mkSchedule (interval (obj c)) (worker (obj c)) ch)
                             (L87 (time.mkTimer (Some (now st + 1)) (time.C tm)) start)) st,
               [EArm s 1])).
Proof.
  intros Hl. split; [done|]. split.
  - intros Ht. by apply LoopStart_arms.
  - intros tm start v ch Ht Hr Hneg.
    rewrite (LoopConfirmed_arms st s c tm start v ch Hl Ht Hr).
    by rewrite (waitTime_clamped _ _ Hneg).
Qed.

Lemma minimal_duration_one_nanosecond_witness :
  time.Nanosecond = 1
  ∧ step (LoopConfirmed 0%nat) (confirmed_state 10 15)
    = Some (set_cell 0%nat (mkCell (mkSchedule 10 0%nat (mkChan 1 []))
                              (L87 (time.mkTimer (Some (15 + 1)) (mkChan 1 [])) 0))
                     (confirmed_state 10 15),
            [EArm 0%nat 1]).
Proof.
  destruct (minimal_duration_one_nanosecond (confirmed_state 10 15) 0%nat
              (confirmed_cell 10 15) eq_refl) as (H1 & _ & H3).
  split; [exact H1|].
  apply (H3 (time.mkTimer None (mkChan 1 [])) 0 true (mkChan 1 []));
    vm_compute; reflexivity.
Defined.

(** ** Clamping *)




(** ** Compensation *)


Lemma waitTime_compensates iv d :
  0 ≤ iv ≤ max_int64 → 0 ≤ d ≤ max_int64 →
  waitTime iv d = if d <=? iv then iv - d else time.Nanosecond.
Proof.
  intros Hiv Hd. unfold waitTime.
  rewrite wrap64_int64 by (unfold int64, min_int64, max_int64 in *; lia).
  destruct (Z.ltb_spec (iv - d) 0), (Z.leb_spec d iv); (done || lia).
Qed.









(** ** Intervals that are not positive *)

(** C8, as the code has it.  For a Schedule whose interval is zero or
    negative, whenever a run is confirmed after a positive elapsed time and
    the subtraction of line 98 stays within [int64], the computed wait is
    negative and is replaced by one nanosecond: the timer is re-armed for
    the clock reading plus one nanosecond. *)
Theorem nonpositive_interval_clamped st s c tm start v ch :
  heap st !! s = Some c → task c = L87 tm start →
  recv (confirmationChannel (obj c)) = Some (v, ch) →
  interval (obj c) ≤ 0 →
  0 < time.Since (now st) start →
  min_int64 ≤ interval (obj c) - time.Since (now st) start →
  waitTime (interval (obj c)) (time.Since (now st) start) = time.Nanosecond
  ∧ step (LoopConfirmed s) st
    = Some (set_cell s (mkCell (mkSchedule (interval (obj c)) (worker (obj c)) ch)
                          (L87 (time.mkTimer (Some (now st + time.Nanosecond)) (time.C tm))
                               start)) st,
            [EArm s time.Nanosecond]).
Proof.
  intros Hl Ht Hr Hiv Hpos Hlo.
  assert (Hw : waitTime (interval (obj c)) (time.Since (now st) start) = time.Nanosecond).
  { apply waitTime_clamped. rewrite wrap64_int64; [lia|].
    unfold int64, max_int64, min_int64 in *. lia. }
  split; [done|].
  rewrite (LoopConfirmed_arms st s c tm start v ch Hl Ht Hr). by rewrite Hw.
Qed.

Lemma nonpositive_interval_clamped_witness :
  waitTime (-5) 3 = time.Nanosecond
  ∧ step (LoopConfirmed 0%nat) (confirmed_state (-5) 3)
    = Some (set_cell 0%nat (mkCell (mkSchedule (-5) 0%nat (mkChan 1 []))
                              (L87 (time.mkTimer (Some (3 + time.Nanosecond)) (mkChan 1 []))
                                   0))
                     (confirmed_state (-5) 3),
            [EArm 0%nat time.Nanosecond]).
Proof.
  apply (nonpositive_interval_clamped (confirmed_state (-5) 3) 0%nat
           (confirmed_cell (-5) 3) (time.mkTimer None (mkChan 1 [])) 0 true (mkChan 1 []));
    vm_compute; (reflexivity || discriminate).
Defined.

(** C8 as stated fails in two places.  With the least interval, [-2^63],
    and one nanosecond elapsed, the subtraction of line 98 wraps around to
    [2^63 - 1], which is not negative: the timer is re-armed with the
    greatest duration.  And with an interval of zero and no time elapsed on
    the clock, the computed wait is zero and is kept. *)
Lemma nonpositive_interval_not_clamped :
  min_int64 ≤ 0
  ∧ time.Since (now (confirmed_state min_int64 1)) 0 = 1
  ∧ step (LoopConfirmed 0%nat) (confirmed_state min_int64 1)
    = Some (set_cell 0%nat (mkCell (mkSchedule min_int64 0%nat (mkChan 1 []))
                              (L87 (time.mkTimer (Some (1 + max_int64)) (mkChan 1 [])) 0))
                     (confirmed_state min_int64 1),
            [EArm 0%nat max_int64])
  ∧ waitTime min_int64 1 = max_int64
  ∧ waitTime min_int64 1 ≠ time.Nanosecond
  ∧ arms 0%nat (snd (outcome (solo min_int64 [1]))) = [time.Nanosecond; max_int64]
  ∧ waitTime 0 0 = 0
  ∧ arms 0%nat (snd (outcome (solo 0 [0]))) = [time.Nanosecond; 0].
Proof. repeat split; vm_compute; (reflexivity || discriminate). Qed.

(** ** The dispatch channel *)

(** C5, as the code has it.  [jobch] has one buffer slot.  The send of line
    91 blocks exactly while that slot is taken by a Schedule the worker
    goroutine has not received yet; while the slot is free the send goes
    through, whether the worker goroutine is idle or inside a job.  So at
    most one run is queued at any time. *)
Theorem dispatch_blocks_on_full_slot t0 st evs s c tm start :
  reachable t0 st evs → heap st !! s = Some c → task c = L91 tm start →
  cap (jobch (scheduler st)) = 1%nat
  ∧ (length (buf (jobch (scheduler st))) ≤ 1)%nat
  ∧ (buf (jobch (scheduler st)) ≠ [] → step (LoopSend s) st = None)
  ∧ (buf (jobch (scheduler st)) = [] →
     step (LoopSend s) st
     = Some (set_jobch (mkChan 1 [s]) (set_cell s (mkCell (obj c) (L87 tm start)) st),
             [EDispatch s])).
Proof.
  intros Hr Hl Ht. apply reachable_inv in Hr as [Hcap Hlen _ _ _ _].
  repeat split; try done.
  - intros Hne. simpl. rewrite Hl. simpl. unfold scheduleLoop. rewrite Ht.
    rewrite send_full; [done|].
    rewrite Hcap. destruct (buf (jobch (scheduler st))); [done|simpl; lia].
  - intros Hnil. simpl. rewrite Hl. simpl. unfold scheduleLoop. rewrite Ht.
    rewrite send_free by (rewrite Hnil, Hcap; simpl; lia).
    simpl. by rewrite Hnil, Hcap.
Qed.

Lemma dispatch_blocks_on_full_slot_witness :
  cap (jobch (scheduler served_state)) = 1%nat
  ∧ (length (buf (jobch (scheduler served_state))) ≤ 1)%nat
  ∧ (buf (jobch (scheduler served_state)) ≠ [] → step (LoopSend 1%nat) served_state = None)
  ∧ (buf (jobch (scheduler served_state)) = [] →
     step (LoopSend 1%nat) served_state
     = Some (set_jobch (mkChan 1 [1%nat])
               (set_cell 1%nat (mkCell (mkSchedule 30 2%nat (mkChan 1 []))
                                  (L87 (time.mkTimer None (mkChan 1 [])) 1))
                         served_state),
             [EDispatch 1%nat])).
Proof.
  exact (dispatch_blocks_on_full_slot 0 served_state served_trace 1%nat
           (mkCell (mkSchedule 30 2%nat (mkChan 1 []))
                   (L91 (time.mkTimer None (mkChan 1 [])) 1))
           (time.mkTimer None (mkChan 1 [])) 1
           served_reachable eq_refl eq_refl).
Defined.

(** C5 as stated fails: while the worker goroutine is inside the job of the
    first Schedule, the send of the second Schedule does not block, and its
    run is queued on [jobch] while the consumer is busy. *)
Lemma push_while_consumer_busy :
  reachable 0 served_state served_trace
  ∧ consumer served_state = W53 0%nat
  ∧ in_progress served_trace [] = [0%nat]
  ∧ step (LoopSend 1%nat) served_state = Some (busy_state, [EDispatch 1%nat])
  ∧ consumer busy_state = W53 0%nat
  ∧ buf (jobch (scheduler busy_state)) = [1%nat].
Proof.
  split; [exact served_reachable|]. repeat split; vm_compute; reflexivity.
Qed.

(** * Further properties of the code *)

Lemma acked_reachable : reachable (-1) acked_state acked_trace.
Proof. exists (first_job 10 15). vm_compute. reflexivity. Defined.

Lemma reachable_cell_ok t0 st evs s c :
  reachable t0 st evs → heap st !! s = Some c →
  cell_ok (jobch (scheduler st)) (consumer st) s c.
Proof. intros Hr Hl. apply reachable_inv in Hr as [_ _ _ _ _ Hc]. by apply Hc. Qed.

(** ** The timer and the select *)

(** X1. Whenever line 102 resets the timer, the timer has expired and its
    channel has been read: [Reset] is never called on a timer that is still
    armed or whose expiry is still waiting in [timer.C]. *)
Theorem Reset_on_drained_timer t0 st evs s c tm start st' ev :
  reachable t0 st evs → heap st !! s = Some c → task c = L87 tm start →
  step (LoopConfirmed s) st = Some (st', ev) →
  time.when tm = None ∧ buf (time.C tm) = [].
Proof.
  intros Hr Hl Ht Hst. destruct (reachable_cell_ok _ _ _ _ _ Hr Hl) as (_ & _ & H3).
  simpl in Hst. rewrite Hl in Hst. simpl in Hst. unfold scheduleLoop in Hst.
  rewrite Ht in Hst.
  destruct (recv (confirmationChannel (obj c))) as [[v ch]|] eqn:Hrv; [|done].
  apply recv_Some in Hrv as [Hb _].
  unfold tokens, started, pending, confirmed, timer_pending in H3.
  rewrite Ht, Hb in H3. simpl in H3.
  destruct (time.when tm); [lia|]. split; [done|].
  destruct (buf (time.C tm)); [done|]. simpl in H3. lia.
Qed.

Lemma Reset_on_drained_timer_witness :
  time.when (time.mkTimer None (mkChan 1 [])) = None
  ∧ buf (time.C (time.mkTimer None (mkChan 1 []))) = [].
Proof.
  refine (Reset_on_drained_timer (-1) acked_state acked_trace 0%nat acked_cell
            (time.mkTimer None (mkChan 1 [])) 0 _ _
            acked_reachable eq_refl eq_refl _).
  vm_compute. reflexivity.
Defined.

(** X2. The two cases of the select of line 87 are never ready together: a
    Schedule never has an expiry waiting in [timer.C] and a confirmation
    waiting in its [confirmationChannel] at once, so the choice Go makes
    between ready cases never arises. *)
Theorem select_cases_exclusive t0 st evs s st1 ev1 :
  reachable t0 st evs →
  step (LoopTimer s) st = Some (st1, ev1) →
  step (LoopConfirmed s) st = None.
Proof.
  intros Hr Hst. simpl in *.
  destruct (heap st !! s) as [c|] eqn:Hl; simpl in *; [|done].
  destruct (reachable_cell_ok _ _ _ _ _ Hr Hl) as (_ & _ & H3).
  unfold scheduleLoop in *. destruct (task c) as [|tm start|tm start] eqn:Ht; try done.
  destruct (recv (time.C tm)) as [[v ch]|] eqn:Hrv; [|done].
  apply recv_Some in Hrv as [Hb _].
  unfold tokens, started, pending, confirmed, timer_pending in H3.
  rewrite Ht, Hb in H3. simpl in H3.
  unfold recv. destruct (buf (confirmationChannel (obj c))); [done|]. simpl in H3. lia.
Qed.

Lemma expired_reachable : reachable (-1) expired_state expired_trace.
Proof. exists expired_actions. vm_compute. reflexivity. Defined.

Lemma select_cases_exclusive_witness :
  step (LoopConfirmed 0%nat) expired_state = None.
Proof.
  refine (select_cases_exclusive (-1) expired_state expired_trace 0%nat _ _
            expired_reachable _).
  vm_compute. reflexivity.
Defined.

(** ** The order of the jobs *)

Lemma dispatched_app evs1 evs2 :
  dispatched (evs1 ++ evs2) = dispatched evs1 ++ dispatched evs2.
Proof. apply omap_app. Qed.

Lemma entered_app evs1 evs2 : entered (evs1 ++ evs2) = entered evs1 ++ entered evs2.
Proof. apply omap_app. Qed.

(** A step moves Schedules through [jobch] first in, first out. *)
Lemma step_jobch a st st' ev :
  step a st = Some (st', ev) →
  buf (jobch (scheduler st)) ++ dispatched ev
  = entered ev ++ buf (jobch (scheduler st')).
Proof.
  intros H. destruct a; step_cases H; simpl; rewrite ?app_nil_r; try done.
  - by match goal with E : send _ _ = Some _ |- _ => apply send_Some in E as [_ ->] end.
  - match goal with E : recv _ = Some _ |- _ => apply recv_Some in E as [-> _] end.
    done.
Qed.

Lemma reachable_jobch t0 st evs :
  reachable t0 st evs →
  dispatched evs = entered evs ++ buf (jobch (scheduler st)).
Proof.
  revert st evs. apply reachable_induction; [done|].
  intros st evs a st' ev _ IH Hst.
  rewrite dispatched_app, entered_app, IH, <- !app_assoc. f_equal.
  by apply (step_jobch a).
Qed.

(** X3. The jobs are called in the order in which their Schedules were put on
    [jobch]: the Schedules dispatched so far are the Schedules whose job has
    been called, in the same order, followed by what is still queued. *)
Theorem jobs_run_in_dispatch_order t0 st evs :
  reachable t0 st evs →
  dispatched evs = entered evs ++ buf (jobch (scheduler st)).
Proof. apply reachable_jobch. Qed.

Lemma jobs_run_in_dispatch_order_witness :
  dispatched busy_trace = entered busy_trace ++ buf (jobch (scheduler busy_state)).
Proof. exact (jobs_run_in_dispatch_order 0 busy_state busy_trace busy_reachable). Defined.

(** ** What registration fixes *)

Lemma step_keeps_schedule a st st' ev s c :
  step a st = Some (st', ev) → heap st !! s = Some c →
  ∃ c', heap st' !! s = Some c'
        ∧ interval (obj c') = interval (obj c)
        ∧ worker (obj c') = worker (obj c).
Proof.
  intros H Hl. pose proof (lookup_lt_Some _ _ _ Hl) as Hlt.
  destruct a; step_cases H; simpl; try (by exists c);
    try (match goal with
         | |- context [<[?p := ?c1]> _ !! s] =>
             destruct (decide (p = s)) as [->|Hne];
             [rewrite list_lookup_insert_eq by done; eexists; split; [done|];
              simpl; split; congruence
             |rewrite list_lookup_insert_ne by done; by exists c]
         end).
  exists c. by rewrite lookup_app_l.
Qed.

Lemma step_schedules a st st' ev :
  step a st = Some (st', ev) →
  schedules (scheduler st) `prefix_of` schedules (scheduler st').
Proof.
  intros H. destruct a; step_cases H; simpl; try done.
  by apply prefix_app_r.
Qed.

(** X4. Nothing the package does ever changes the interval or the worker of a
    registered Schedule, removes a Schedule, or touches the entries of
    [schedules] that are there: along any run of moves, from any state, a
    Schedule stays at its address with its interval and worker, and
    [schedules] only grows at its end. *)
Theorem registered_schedule_kept acts st st' evs s c :
  exec acts st = Some (st', evs) → heap st !! s = Some c →
  (∃ c', heap st' !! s = Some c'
         ∧ interval (obj c') = interval (obj c)
         ∧ worker (obj c') = worker (obj c))
  ∧ schedules (scheduler st) `prefix_of` schedules (scheduler st').
Proof.
  revert st evs c. induction acts as [|a acts IH]; intros st evs c Hex Hl; simpl in Hex.
  - injection Hex as <- <-. split; [by exists c|done].
  - destruct (step a st) as [[st1 ev1]|] eqn:Hst; simpl in Hex; [|done].
    destruct (exec acts st1) as [[st2 ev2]|] eqn:Hex2; simpl in Hex; [|done].
    injection Hex as <- <-.
    destruct (step_keeps_schedule _ _ _ _ _ _ Hst Hl) as (c1 & Hl1 & Hi1 & Hw1).
    destruct (IH _ _ _ Hex2 Hl1) as [(c2 & Hl2 & Hi2 & Hw2) Hpre].
    split.
    + exists c2. repeat split; [done|congruence..].
    + etrans; [by eapply step_schedules|done].
Qed.

Lemma registered_schedule_kept_witness :
  (∃ c', heap busy_state !! 0%nat = Some c'
         ∧ interval (obj c') = 20
         ∧ worker (obj c') = 1%nat)
  ∧ [0%nat] `prefix_of` schedules (scheduler busy_state).
Proof.
  refine (registered_schedule_kept
            (tail (busy_start ++ [LoopSend 1%nat]))
            (AddSchedule 1%nat 20 (New 0)) busy_state
            busy_trace 0%nat (mkCell (mkSchedule 20 1%nat (make 1)) L84) _ eq_refl).
  vm_compute. reflexivity.
Defined.

Lemma step_registrations a st st' ev :
  step a st = Some (st', ev) →
  length (heap st') = (length (heap st) + if is_AddSchedule a then 1 else 0)%nat.
Proof.
  intros H. destruct a; step_cases H; simpl; rewrite ?length_insert, ?length_app;
    simpl; lia.
Qed.

(** X5. [schedules] lists the registered Schedules, each once, in the order of
    their registration: after any execution it is the list of the addresses
    0, 1, ..., n-1, where n is the number of calls of [AddSchedule] so far,
    and these are the addresses that hold a Schedule. *)
Theorem schedules_in_registration_order t0 acts st evs :
  exec acts (New t0) = Some (st, evs) →
  schedules (scheduler st) = seq 0 (registrations acts)
  ∧ length (heap st) = registrations acts
  ∧ NoDup (schedules (scheduler st)).
Proof.
  intros Hex.
  assert (Hlen : length (heap st) = registrations acts).
  { revert st evs Hex. induction acts as [|a acts IH] using rev_ind; intros st evs Hex.
    - simpl in Hex. by injection Hex as <- <-.
    - apply exec_snoc in Hex as (st1 & ev1 & ev2 & Hex & Hst & ->).
      rewrite (step_registrations _ _ _ _ Hst), (IH _ _ Hex).
      unfold registrations. rewrite List.filter_app, length_app. simpl.
      destruct (is_AddSchedule a); simpl; lia. }
  assert (Hr : reachable t0 st evs) by by exists acts.
  apply reachable_inv in Hr as [_ _ _ _ Hs _].
  rewrite Hs, Hlen. repeat split. apply NoDup_seq.
Qed.

Lemma schedules_in_registration_order_witness :
  schedules (scheduler busy_state) = seq 0 2
  ∧ length (heap busy_state) = 2%nat
  ∧ NoDup (schedules (scheduler busy_state)).
Proof.
  refine (schedules_in_registration_order 0 (busy_start ++ [LoopSend 1%nat])
            busy_state busy_trace _).
  vm_compute. reflexivity.
Defined.

(** ** A job that does not return *)

Lemma reachable_exec t0 st evs0 acts st' evs :
  reachable t0 st evs0 → exec acts st = Some (st', evs) →
  reachable t0 st' (evs0 ++ evs).
Proof.
  intros [acts0 H0] Hex. exists (acts0 ++ acts).
  rewrite exec_app, H0. simpl. rewrite Hex. done.
Qed.

Lemma step_in_job a st st' ev p :
  step a st = Some (st', ev) → consumer st = W53 p → a ≠ WorkerReturn →
  consumer st' = W53 p ∧ entered ev = [].
Proof.
  intros H Hw Hne. destruct a; step_cases H; simpl; try done; congruence.
Qed.

(** X6. While the job of a Schedule is inside [PerformWork], nothing but its
    return lets any job start: along any run of moves without that return,
    the worker goroutine stays in the job, no job is called, and at most one
    Schedule gets onto [jobch], where it stays; every other Schedule that is
    due blocks at line 91. *)
Theorem job_that_does_not_return_starves t0 st evs0 acts st' evs p :
  reachable t0 st evs0 → exec acts st = Some (st', evs) →
  consumer st = W53 p → WorkerReturn ∉ acts →
  consumer st' = W53 p
  ∧ entered evs = []
  ∧ buf (jobch (scheduler st')) = buf (jobch (scheduler st)) ++ dispatched evs
  ∧ (length (buf (jobch (scheduler st))) + length (dispatched evs) ≤ 1)%nat.
Proof.
  intros Hr Hex Hw Hno.
  assert (H12 : consumer st' = W53 p ∧ entered evs = []).
  { clear Hr. revert st evs Hex Hw.
    induction acts as [|a acts IH]; intros st evs Hex Hw; simpl in Hex.
    - by injection Hex as <- <-.
    - apply not_elem_of_cons in Hno as [Hne Hno].
      destruct (step a st) as [[st1 ev1]|] eqn:Hst; simpl in Hex; [|done].
      destruct (exec acts st1) as [[st2 ev2]|] eqn:Hex2; simpl in Hex; [|done].
      injection Hex as <- <-.
      destruct (step_in_job _ _ _ _ _ Hst Hw (not_eq_sym Hne)) as [Hw1 He1].
      destruct (IH Hno _ _ Hex2 Hw1) as [Hw2 He2].
      split; [done|]. by rewrite entered_app, He1, He2. }
  destruct H12 as [H1 H2]. split; [done|]. split; [done|].
  pose proof (reachable_exec _ _ _ _ _ _ Hr Hex) as Hr'.
  pose proof (reachable_jobch _ _ _ Hr) as Hd.
  pose proof (reachable_jobch _ _ _ Hr') as Hd'.
  rewrite dispatched_app, entered_app, H2, app_nil_r, Hd, <- app_assoc in Hd'.
  apply app_inv_head in Hd'. split; [done|].
  apply reachable_inv in Hr' as [_ Hlen _ _ _ _].
  by rewrite <- Hd', length_app in Hlen.
Qed.

Lemma job_that_does_not_return_starves_witness :
  consumer busy_state_later = W53 0%nat
  ∧ entered [EDispatch 1%nat] = []
  ∧ buf (jobch (scheduler busy_state_later))
    = buf (jobch (scheduler served_state)) ++ dispatched [EDispatch 1%nat]
  ∧ (length (buf (jobch (scheduler served_state)))
     + length (dispatched [EDispatch 1%nat]) ≤ 1)%nat.
Proof.
  refine (job_that_does_not_return_starves 0 served_state served_trace
            [Tick 1000; LoopSend 1%nat; Tick 1000] busy_state_later [EDispatch 1%nat] 0%nat
            served_reachable _ eq_refl _).
  - vm_compute. reflexivity.
  - intros H. repeat (apply elem_of_cons in H as [H|H]; [discriminate H|]).
    by apply elem_of_nil in H.
Defined.

(** ** Time *)

Lemma step_startTime a st st' ev :
  (∀ s c t, heap st !! s = Some c → start_of c = Some t → t ≤ now st) →
  step a st = Some (st', ev) →
  ∀ s c t, heap st' !! s = Some c → start_of c = Some t → t ≤ now st'.
Proof.
  intros IH H s c t Hl Hs. pose proof (step_now _ _ _ _ H) as Hnow.
  destruct a; step_cases H; simpl in *;
    try (by eapply IH);
    try (apply list_lookup_insert_Some in Hl as [(<- & <- & _)|(_ & Hl)];
         [|by eapply IH]);
    unfold start_of in *; simpl in *.
  - pose proof (IH s c t Hl Hs). lia.
  - apply lookup_app_Some in Hl as [Hl|[_ Hl]]; [by eapply IH|].
    apply list_lookup_singleton_Some in Hl as [_ <-]. done.
  - injection Hs as <-. lia.
  - eapply IH; [done|]. unfold start_of.
    match goal with E : task _ = _ |- _ => by rewrite E end.
  - eapply IH; [done|]. unfold start_of.
    match goal with E : task _ = _ |- _ => by rewrite E end.
  - injection Hs as <-. lia.
  - eapply IH; [done|]. unfold start_of.
    match goal with E : task _ = _ |- _ => by rewrite E end.
  - eapply IH; [done|]. unfold start_of.
    match goal with E : task _ = _ |- _ => by rewrite E end.
  - eapply IH; [done|]. by unfold start_of.
Qed.

(** The recorded [startTime] of a goroutine is never ahead of the clock, so
    the time passed that line 97 computes is never negative. *)
Lemma reachable_startTime t0 st evs :
  reachable t0 st evs →
  ∀ s c t, heap st !! s = Some c → start_of c = Some t → t ≤ now st.
Proof.
  revert st evs.
  apply (reachable_induction t0
           (λ st _, ∀ s c t, heap st !! s = Some c → start_of c = Some t → t ≤ now st)).
  - intros s c t Hl. done.
  - intros st evs a st' ev _ IH Hst. by eapply step_startTime.
Qed.

Lemma Since_nonneg clock t : t ≤ clock → 0 ≤ time.Since clock t ≤ max_int64.
Proof. unfold time.Since, time.Sub, sat64, min_int64, max_int64. lia. Qed.

Lemma waitTime_at_most iv passed :
  0 ≤ iv ≤ max_int64 → 0 ≤ passed ≤ max_int64 →
  waitTime iv passed ≤ Z.max iv time.Nanosecond.
Proof.
  intros Hiv Hp. rewrite waitTime_compensates by done.
  unfold time.Nanosecond. destruct (Z.leb_spec passed iv); lia.
Qed.

Lemma step_arm_cell a st st' ev s d :
  step a st = Some (st', ev) → EArm s d ∈ ev →
  ∃ c, heap st !! s = Some c
       ∧ (d = time.Nanosecond
          ∨ ∃ tm start, task c = L87 tm start
              ∧ d = waitTime (interval (obj c)) (time.Since (now st) start)).
Proof.
  intros H Hin. destruct a; step_cases H;
    try (by apply elem_of_nil in Hin);
    apply list_elem_of_singleton in Hin; try discriminate Hin;
    injection Hin as -> ->; eexists; (split; [done|]).
  - by left.
  - right. eauto.
Qed.

(** X7. The package comment says the time between runs will be smaller than the
    interval: in every execution, every duration the timer of a Schedule
    with interval [iv >= 0] is armed with lies between zero and [iv] (or one
    nanosecond, when [iv] is zero). *)
Theorem wait_at_most_interval t0 st evs s c d :
  reachable t0 st evs → heap st !! s = Some c →
  0 ≤ interval (obj c) ≤ max_int64 → EArm s d ∈ evs →
  0 ≤ d ≤ Z.max (interval (obj c)) time.Nanosecond.
Proof.
  intros Hr Hl Hiv Hin. split; [by eapply reachable_arms|].
  revert st evs Hr s c d Hl Hiv Hin.
  apply (reachable_induction t0
           (λ st evs, ∀ s c d, heap st !! s = Some c →
              0 ≤ interval (obj c) ≤ max_int64 → EArm s d ∈ evs →
              d ≤ Z.max (interval (obj c)) time.Nanosecond)).
  - intros s c d Hl. done.
  - intros st evs a st' ev Hr IH Hst s c' d Hl' Hiv [Hin|Hin]%elem_of_app.
    + assert (∃ c, heap st !! s = Some c) as [c Hl].
      { clear -Hr Hin. revert st evs Hr s d Hin.
        apply (reachable_induction t0
                 (λ st evs, ∀ s d, EArm s d ∈ evs → ∃ c, heap st !! s = Some c)).
        - intros s d Hin. by apply elem_of_nil in Hin.
        - intros st evs a st' ev _ IH Hst s d [Hin|Hin]%elem_of_app.
          + destruct (IH _ _ Hin) as [c Hl].
            destruct (step_keeps_schedule _ _ _ _ _ _ Hst Hl) as (c' & Hl' & _).
            by exists c'.
          + destruct (step_arm_cell _ _ _ _ _ _ Hst Hin) as (c & Hl & _).
            destruct (step_keeps_schedule _ _ _ _ _ _ Hst Hl) as (c' & Hl' & _).
            by exists c'. }
      destruct (step_keeps_schedule _ _ _ _ _ _ Hst Hl) as (c1 & Hl1 & Hi1 & _).
      assert (c1 = c') as -> by congruence. rewrite Hi1 in *. by eapply IH.
    + destruct (step_arm_cell _ _ _ _ _ _ Hst Hin) as (c & Hl & Hd).
      destruct (step_keeps_schedule _ _ _ _ _ _ Hst Hl) as (c1 & Hl1 & Hi1 & _).
      assert (c1 = c') as -> by congruence. rewrite Hi1 in *.
      destruct Hd as [->|(tm & start & Ht & ->)]; [lia|].
      apply waitTime_at_most; [done|]. apply Since_nonneg.
      eapply (reachable_startTime _ _ _ Hr s c); [done|]. unfold start_of. by rewrite Ht.
Qed.

Lemma busy_cell0_lookup :
  heap busy_state !! 0%nat
  = Some (mkCell (mkSchedule 20 1%nat (mkChan 1 []))
                 (L87 (time.mkTimer None (mkChan 1 [])) 1)).
Proof. vm_compute. reflexivity. Defined.

Lemma wait_at_most_interval_witness :
  0 ≤ 1 ≤ Z.max 20 time.Nanosecond.
Proof.
  refine (wait_at_most_interval 0 busy_state busy_trace 0%nat _ 1
            busy_reachable busy_cell0_lookup _ _).
  - vm_compute. split; discriminate.
  - vm_compute. left.
Defined.




(** ** Progress *)

Lemma WorkerConfirm_enabled st p :
  inv st → consumer st = W54 p →
  ∃ st', step WorkerConfirm st = Some (st', [EAck p]).
Proof.
  intros [_ _ _ Hh _ Hc] Hw. simpl. unfold workerLoop. rewrite Hw.
  assert (Hp : allocated st p) by (apply Hh; rewrite Hw; simpl; by rewrite decide_True).
  apply lookup_lt_is_Some_2 in Hp as [c Hl]. destruct (Hc p c Hl) as (H1 & _ & H3).
  unfold tokens, started, confirmed in H3. rewrite Hw in H3. simpl in H3.
  rewrite decide_True in H3 by done.
  rewrite Hl. simpl. rewrite send_free; [simpl; eauto|].
  rewrite H1. destruct (task c); lia.
Qed.

(** X9. The package never deadlocks, as long as jobs return: in every reachable
    state with at least one Schedule, some goroutine or timer can move at
    once, or the Scheduler is idle and the first Schedule waits for its
    timer, which expires as soon as the clock has reached its instant. *)
Theorem never_deadlocked t0 st evs :
  reachable t0 st evs → heap st ≠ [] →
  (∃ a st' ev, is_goroutine a = true ∧ step a st = Some (st', ev))
  ∨ (∃ c tm start t st' ev,
       heap st !! 0%nat = Some c ∧ task c = L87 tm start
       ∧ time.when tm = Some t ∧ now st < t
       ∧ consumer st = W52 ∧ buf (jobch (scheduler st)) = []
       ∧ exec [Tick (t - now st); TimerExpire 0%nat] st = Some (st', ev)).
Proof.
  intros Hr Hne. pose proof (reachable_inv _ _ _ Hr) as Hinv.
  pose proof Hinv as [Hcap Hlen _ _ _ Hc].
  destruct (consumer st) as [|p|p] eqn:Hw.
  - destruct (buf (jobch (scheduler st))) as [|q rest] eqn:Hb.
    + assert (∃ c, heap st !! 0%nat = Some c) as [c Hl].
      { destruct (heap st) as [|c hp]; [done|]. by exists c. }
      destruct (Hc 0%nat c Hl) as (H1 & H2 & H3).
      unfold tokens, started, pending, confirmed, timer_cap, queued in H2, H3.
      rewrite Hb in H3. simpl in H3.
      destruct (task c) as [|tm start|tm start] eqn:Ht.
      * left. exists (LoopStart 0%nat). eexists _, _. split; [done|].
        by apply LoopStart_arms.
      * destruct (buf (confirmationChannel (obj c))) as [|v vs] eqn:Hcb.
        -- unfold timer_pending in H3. destruct (time.when tm) as [t|] eqn:Hwh.
           ++ destruct (Z.leb_spec t (now st)) as [Hdue|Hlater].
              ** left. exists (TimerExpire 0%nat). eexists _, _. split; [done|].
                 simpl. rewrite Hl. simpl. unfold scheduleLoop.
                 rewrite Ht. unfold time.expire. rewrite Hwh.
                 destruct (Z.leb_spec t (now st)); [|lia]. done.
              ** right. exists c, tm, start, t. eexists _, _.
                 repeat split; try done.
                 simpl. destruct (Z.leb_spec 0 (t - now st)); [|lia]. simpl.
                 rewrite Hl. simpl. unfold scheduleLoop. rewrite Ht.
                 unfold time.expire. rewrite Hwh. simpl.
                 destruct (Z.leb_spec t (now st + (t - now st))); [|lia]. done.
           ++ destruct (buf (time.C tm)) as [|x xs] eqn:Hx; [simpl in H3; lia|].
              left. exists (LoopTimer 0%nat). eexists _, _. split; [done|].
              simpl. rewrite Hl. simpl. unfold scheduleLoop.
              rewrite Ht. unfold recv. rewrite Hx. done.
        -- left. exists (LoopConfirmed 0%nat). eexists _, _. split; [done|].
           apply (LoopConfirmed_arms st 0%nat c tm start v (mkChan 1 vs) Hl Ht).
           unfold recv. by rewrite Hcb, H1.
      * left. exists (LoopSend 0%nat). eexists _, _. split; [done|].
        simpl. rewrite Hl. simpl. unfold scheduleLoop. rewrite Ht.
        rewrite send_free by (rewrite Hb, Hcap; simpl; lia). done.
    + left. exists WorkerRecv. eexists _, _. split; [done|].
      simpl. unfold workerLoop. rewrite Hw. unfold recv. rewrite Hb. done.
  - left. exists WorkerReturn. eexists _, _. split; [done|].
    simpl. unfold workerLoop. by rewrite Hw.
  - left. exists WorkerConfirm. destruct (WorkerConfirm_enabled st p Hinv Hw) as [st' Hst].
    by exists st', [EAck p].
Qed.

Lemma never_deadlocked_witness :
  (∃ a st' ev, is_goroutine a = true ∧ step a busy_state = Some (st', ev))
  ∨ (∃ c tm start t st' ev,
       heap busy_state !! 0%nat = Some c ∧ task c = L87 tm start
       ∧ time.when tm = Some t ∧ now busy_state < t
       ∧ consumer busy_state = W52 ∧ buf (jobch (scheduler busy_state)) = []
       ∧ exec [Tick (t - now busy_state); TimerExpire 0%nat] busy_state = Some (st', ev)).
Proof.
  refine (never_deadlocked 0 busy_state busy_trace busy_reachable _).
  vm_compute. discriminate.
Defined.

(** ** The account of the runs *)

Lemma count_app k s evs1 evs2 :
  count k s (evs1 ++ evs2) = (count k s evs1 + count k s evs2)%nat.
Proof. induction evs1 as [|e evs1 IH]; simpl; [done|]. rewrite IH. lia. Qed.

Lemma holds_split w s : holds w s = (calling w s + confirming w s)%nat.
Proof. destruct w; simpl; try case_decide; lia. Qed.

Lemma step_accounting a st st' ev evs s :
  inv st → accounting st evs s → step a st = Some (st', ev) →
  accounting st' (evs ++ ev) s.
Proof.
  intros Hinv IH Hst. pose proof Hinv as [Hcap Hlen Hq Hh Hs Hc].
  unfold accounting in *. rewrite !count_app.
  destruct a as [d|w iv|p|p|p|p|p| | |]; simpl in Hst.
  - destruct (0 <=? d); [|done]. injection Hst as <- <-. simpl.
    rewrite !Nat.add_0_r. exact IH.
  - destruct (int64b iv); [|done]. injection Hst as <- <-. simpl.
    rewrite !Nat.add_0_r. destruct (heap st !! s) as [c|] eqn:Hl.
    + rewrite lookup_app_l by (by eapply lookup_lt_Some). by rewrite Hl.
    + apply lookup_ge_None in Hl.
      destruct (decide (s = length (heap st))) as [->|Hne].
      * rewrite lookup_app_r by done. rewrite Nat.sub_diag. simpl.
        destruct IH as (-> & -> & -> & ->). unfold pending. simpl.
        rewrite queued_absent by (intros Hin; specialize (Hq _ Hin); unfold allocated in *; lia).
        pose proof (holds_split (consumer st) (length (heap st))) as Hsp.
        pose proof (holds_le (consumer st) (length (heap st))) as Hle.
        destruct (decide (holds (consumer st) (length (heap st)) = 1%nat)) as [H1|H1].
        -- specialize (Hh _ H1). unfold allocated in Hh. lia.
        -- repeat split; lia.
      * rewrite lookup_ge_None_2 by (rewrite length_app; simpl; lia). done.
  - destruct (heap st !! p) as [c|] eqn:Hl; simpl in Hst; [|done].
    unfold scheduleLoop in Hst. destruct (task c) eqn:Ht; [|done..].
    injection Hst as <- <-. simpl. destruct (decide (p = s)) as [->|Hne].
    + rewrite list_lookup_insert_eq by (by eapply lookup_lt_Some).
      rewrite Hl in IH. rewrite Nat.eqb_refl. unfold pending in *. rewrite Ht in IH.
      simpl. unfold timer_pending. simpl. lia.
    + rewrite list_lookup_insert_ne by done.
      rewrite (proj2 (Nat.eqb_neq p s)) by done. rewrite !Nat.add_0_r. exact IH.
  - destruct (heap st !! p) as [c|] eqn:Hl; simpl in Hst; [|done].
    unfold scheduleLoop in Hst. destruct (Hc p c Hl) as (H1 & H2 & H3).
    unfold tokens, started, pending, confirmed, timer_cap in H2, H3.
    destruct (task c) as [|tm t0|tm t0] eqn:Ht; [done| |];
      (destruct (time.expire tm (now st)) as [tm'|] eqn:He; simpl in Hst; [|done]);
      injection Hst as <- <-;
      (apply expire_pending in He as [He1 He2]; [|done|lia]);
      simpl; rewrite !Nat.add_0_r;
      (destruct (decide (p = s)) as [->|Hne];
       [rewrite list_lookup_insert_eq by (by eapply lookup_lt_Some);
        rewrite Hl in IH; unfold pending in *; rewrite Ht in IH; simpl; by rewrite He2
       |by rewrite list_lookup_insert_ne by done]).
  - destruct (heap st !! p) as [c|] eqn:Hl; simpl in Hst; [|done].
    unfold scheduleLoop in Hst.
    destruct (task c) as [|tm t0|tm t0] eqn:Ht; [done| |done].
    destruct (recv (time.C tm)) as [[v ch]|] eqn:Hr; simpl in Hst; [|done].
    injection Hst as <- <-. apply recv_Some in Hr as [Hb Hcp].
    simpl. rewrite !Nat.add_0_r. destruct (decide (p = s)) as [->|Hne].
    + rewrite list_lookup_insert_eq by (by eapply lookup_lt_Some).
      rewrite Hl in IH. unfold pending, timer_pending in *. rewrite Ht in IH.
      simpl. rewrite Hb in IH. simpl in IH. destruct IH as (IH1 & IH2 & IH3).
      repeat split; lia.
    + by rewrite list_lookup_insert_ne by done.
  - destruct (heap st !! p) as [c|] eqn:Hl; simpl in Hst; [|done].
    unfold scheduleLoop in Hst.
    destruct (task c) as [|tm t0|tm t0] eqn:Ht; [done|done|].
    destruct (send p (jobch (scheduler st))) as [ch|] eqn:Hsd; simpl in Hst; [|done].
    injection Hst as <- <-. apply send_Some in Hsd as [Hlt ->].
    simpl. rewrite !Nat.add_0_r. rewrite queued_snoc, queued_eta.
    destruct (decide (p = s)) as [->|Hne].
    + rewrite list_lookup_insert_eq by (by eapply lookup_lt_Some).
      rewrite Hl in IH. unfold pending in *. rewrite Ht in IH. simpl.
      destruct IH as (IH1 & IH2 & IH3).
      repeat split; lia.
    + rewrite list_lookup_insert_ne by done.
      destruct (heap st !! s); [|done]. by rewrite Nat.add_0_r.
  - destruct (heap st !! p) as [c|] eqn:Hl; simpl in Hst; [|done].
    unfold scheduleLoop in Hst. destruct (Hc p c Hl) as (H1 & H2 & H3).
    unfold tokens, started, pending, confirmed, timer_cap in H2, H3.
    destruct (task c) as [|tm t0|tm t0] eqn:Ht; [done| |done].
    destruct (recv (confirmationChannel (obj c))) as [[v ch]|] eqn:Hr;
      simpl in Hst; [|done].
    injection Hst as <- <-. apply recv_Some in Hr as [Hb Hcp].
    rewrite Hb in H3. simpl in H3. simpl. destruct (decide (p = s)) as [->|Hne].
    + rewrite list_lookup_insert_eq by (by eapply lookup_lt_Some).
      rewrite Hl in IH. rewrite Nat.eqb_refl. unfold pending, timer_pending in *.
      rewrite Ht in IH. simpl. destruct IH as (IH1 & IH2 & IH3).
      destruct (time.when tm); repeat split; lia.
    + rewrite list_lookup_insert_ne by done.
      rewrite (proj2 (Nat.eqb_neq p s)) by done. rewrite !Nat.add_0_r. exact IH.
  - unfold workerLoop in Hst. destruct (consumer st) eqn:Hw; [|done..].
    destruct (recv (jobch (scheduler st))) as [[p ch]|] eqn:Hr; simpl in Hst; [|done].
    injection Hst as <- <-. apply recv_Some in Hr as [Hb Hcp].
    assert (Hp : allocated st p) by (apply Hq; rewrite Hb; by left).
    assert (Hqd : queued (jobch (scheduler st)) s
                  = ((if decide (p = s) then 1 else 0) + queued ch s)%nat).
    { unfold queued. rewrite Hb, list.filter_cons. by destruct (decide (p = s)). }
    simpl. rewrite !Nat.add_0_r. rewrite Hqd in IH.
    destruct (Nat.eqb_spec p s) as [->|Hne].
    + apply lookup_lt_is_Some_2 in Hp as [c Hl]. rewrite Hl in *.
      rewrite decide_True in * by done. simpl in IH. account IH.
    + rewrite decide_False in * by done. simpl in IH.
      destruct (heap st !! s); account IH.
  - unfold workerLoop in Hst. destruct (consumer st) as [|p|p] eqn:Hw; [done| |done].
    injection Hst as <- <-.
    assert (Hp : allocated st p) by (apply Hh; simpl; by rewrite decide_True).
    simpl in *. rewrite !Nat.add_0_r.
    destruct (Nat.eqb_spec p s) as [->|Hne].
    + apply lookup_lt_is_Some_2 in Hp as [c Hl]. rewrite Hl in *.
      rewrite decide_True in * by done. account IH.
    + rewrite decide_False in * by done.
      destruct (heap st !! s); account IH.
  - unfold workerLoop in Hst. destruct (consumer st) as [|p|p] eqn:Hw; [done|done|].
    destruct (heap st !! p) as [c|] eqn:Hl; simpl in Hst; [|done].
    destruct (send true (confirmationChannel (obj c))) as [ch|] eqn:Hsd;
      simpl in Hst; [|done].
    injection Hst as <- <-. simpl in *. rewrite !Nat.add_0_r.
    destruct (Nat.eqb_spec p s) as [->|Hne].
    + rewrite list_lookup_insert_eq by (by eapply lookup_lt_Some).
      rewrite Hl in IH. rewrite decide_True in * by done.
      unfold pending in *. simpl. account IH.
    + rewrite list_lookup_insert_ne by done. rewrite decide_False in * by done.
      destruct (heap st !! s); account IH.
Qed.

Lemma reachable_accounting t0 st evs s : reachable t0 st evs → accounting st evs s.
Proof.
  intros Hr. revert st evs Hr s.
  apply (reachable_induction t0 (λ st evs, ∀ s, accounting st evs s)).
  - intros s. by unfold accounting.
  - intros st evs a st' ev Hr IH Hst s.
    eapply step_accounting; [by eapply reachable_inv|apply IH|done].
Qed.

(** X10. Every run of a job has its own arming of the timer, and no arming is
    used twice: in every execution the calls of the job of a Schedule are at
    most its armings and at least its armings less one; its returns and
    confirmations follow its calls one by one; and the armings are the
    confirmations its goroutine has received plus the first arming. *)
Theorem one_run_per_arming t0 st evs s c :
  reachable t0 st evs → heap st !! s = Some c →
  (count KEnter s evs ≤ count KArm s evs ≤ count KEnter s evs + 1)%nat
  ∧ (count KExit s evs ≤ count KEnter s evs ≤ count KExit s evs + 1)%nat
  ∧ (count KAck s evs ≤ count KExit s evs ≤ count KAck s evs + 1)%nat
  ∧ (count KArm s evs + confirmed c = count KAck s evs + started c)%nat.
Proof.
  intros Hr Hl. pose proof (reachable_accounting _ _ _ s Hr) as Ha.
  unfold accounting in Ha. rewrite Hl in Ha. destruct Ha as (Ha1 & Ha2 & Ha3).
  destruct (reachable_cell_ok _ _ _ _ _ Hr Hl) as (_ & _ & H3).
  unfold tokens in H3. rewrite holds_split in H3.
  assert (started c ≤ 1)%nat by (unfold started; destruct (task c); lia).
  lia.
Qed.

Lemma one_run_per_arming_witness :
  (count KEnter 0%nat busy_trace ≤ count KArm 0%nat busy_trace
                                 ≤ count KEnter 0%nat busy_trace + 1)%nat
  ∧ (count KExit 0%nat busy_trace ≤ count KEnter 0%nat busy_trace
                                  ≤ count KExit 0%nat busy_trace + 1)%nat
  ∧ (count KAck 0%nat busy_trace ≤ count KExit 0%nat busy_trace
                                 ≤ count KAck 0%nat busy_trace + 1)%nat
  ∧ (count KArm 0%nat busy_trace + 0 = count KAck 0%nat busy_trace + 1)%nat.
Proof.
  exact (one_run_per_arming 0 busy_state busy_trace 0%nat _
           busy_reachable busy_cell0_lookup).
Defined.

(** ** The spacing of the runs *)

Lemma start_times_app s evs1 evs2 :
  start_times s (evs1 ++ evs2) = start_times s evs1 ++ start_times s evs2.
Proof. apply omap_app. Qed.

Lemma spaced_snoc iv l x :
  spaced iv l → (∀ t1, list.last l = Some t1 → t1 + iv ≤ x) → spaced iv (l ++ [x]).
Proof.
  intros Hs Hx i t1 t2 H1 H2.
  destruct (decide (S i < length l)%nat) as [Hlt|Hge].
  - rewrite lookup_app_l in H1 by lia. rewrite lookup_app_l in H2 by lia.
    by eapply Hs.
  - assert (S i = length l) as Hi.
    { apply lookup_lt_Some in H2. rewrite length_app in H2. simpl in H2. lia. }
    rewrite lookup_app_l in H1 by lia.
    rewrite lookup_app_r in H2 by lia. rewrite Hi, Nat.sub_diag in H2.
    simpl in H2. injection H2 as <-. apply Hx.
    rewrite last_lookup. rewrite <- Hi. simpl. done.
Qed.

Lemma waitTime_at_least iv passed :
  0 ≤ iv ≤ max_int64 → 0 ≤ passed ≤ max_int64 → iv - passed ≤ waitTime iv passed.
Proof.
  intros Hiv Hp. rewrite waitTime_compensates by done.
  unfold time.Nanosecond. destruct (Z.leb_spec passed iv); lia.
Qed.

Lemma Since_at_most clock t : t ≤ clock → time.Since clock t ≤ clock - t.
Proof. unfold time.Since, time.Sub, sat64, min_int64, max_int64. lia. Qed.

Lemma step_spacing a st st' ev evs s :
  inv st →
  (∀ s c t, heap st !! s = Some c → start_of c = Some t → t ≤ now st) →
  spacing st evs s → step a st = Some (st', ev) → spacing st' (evs ++ ev) s.
Proof.
  intros Hinv Hstart IH Hst. pose proof Hinv as [Hcap Hlen Hq Hh Hs Hc].
  unfold spacing in *. rewrite start_times_app.
  destruct a as [d|w iv|p|p|p|p|p| | |]; simpl in Hst.
  - destruct (Z.leb_spec 0 d); [|done]. injection Hst as <- <-. simpl.
    rewrite app_nil_r. destruct (heap st !! s) as [c|]; [|done].
    intros Hiv. destruct (IH Hiv) as [IH1 IH2]. split; [done|].
    unfold timer_after in *. destruct (task c); [done| |];
      intros t1 Hlast; destruct (IH2 t1 Hlast) as (E & Hw & Hx);
      (split; [done|split; [done|]]); intros x Hin; specialize (Hx x Hin); lia.
  - destruct (int64b iv); [|done]. injection Hst as <- <-. simpl.
    rewrite app_nil_r. destruct (heap st !! s) as [c|] eqn:Hl.
    + rewrite lookup_app_l by (by eapply lookup_lt_Some). by rewrite Hl.
    + apply lookup_ge_None in Hl.
      destruct (decide (s = length (heap st))) as [->|Hne].
      * rewrite lookup_app_r by done. rewrite Nat.sub_diag. simpl.
        intros _. rewrite IH. split; [by intros i t1 t2 H|done].
      * rewrite lookup_ge_None_2 by (rewrite length_app; simpl; lia). done.
  - destruct (heap st !! p) as [c|] eqn:Hl; simpl in Hst; [|done].
    unfold scheduleLoop in Hst. destruct (task c) eqn:Ht; [|done..].
    injection Hst as <- <-. simpl. rewrite app_nil_r.
    destruct (decide (p = s)) as [->|Hne].
    + rewrite list_lookup_insert_eq by (by eapply lookup_lt_Some).
      rewrite Hl in IH. simpl. intros Hiv. destruct (IH Hiv) as [IH1 IH2].
      unfold timer_after in IH2. rewrite Ht in IH2. rewrite IH2.
      split; [by intros i t1 t2 H|]. unfold timer_after. simpl. by intros t1 H.
    + by rewrite list_lookup_insert_ne by done.
  - destruct (heap st !! p) as [c|] eqn:Hl; simpl in Hst; [|done].
    unfold scheduleLoop in Hst.
    destruct (task c) as [|tm t0|tm t0] eqn:Ht; [done| |];
      (destruct (time.expire tm (now st)) as [tm'|] eqn:He; simpl in Hst; [|done]);
      injection Hst as <- <-; apply expire_Some in He as (t & Hwh & Hle & ->);
      simpl; rewrite app_nil_r;
      (destruct (decide (p = s)) as [->|Hne];
       [|by rewrite list_lookup_insert_ne by done]);
      rewrite list_lookup_insert_eq by (by eapply lookup_lt_Some);
      rewrite Hl in IH; simpl; intros Hiv; destruct (IH Hiv) as [IH1 IH2];
      (split; [done|]); unfold timer_after in *; rewrite Ht in IH2; simpl;
      intros t1 Hlast; destruct (IH2 t1 Hlast) as (E & Hw & Hx);
      (split; [done|]); (split; [by intros t' Hc'|]);
      intros x Hin; specialize (Hw t Hwh);
      (destruct (send (now st) (time.C tm)) as [ch|] eqn:Hsd; simpl in Hin;
       [|by apply Hx]);
      apply send_Some in Hsd as [_ ->]; simpl in Hin;
      (apply elem_of_app in Hin as [Hin|Hin]; [by apply Hx|]);
      apply list_elem_of_singleton in Hin as ->; lia.
  - destruct (heap st !! p) as [c|] eqn:Hl; simpl in Hst; [|done].
    unfold scheduleLoop in Hst. destruct (Hc p c Hl) as (H1 & H2 & H3).
    unfold tokens, started, pending, confirmed, timer_cap, timer_pending in H2, H3.
    destruct (task c) as [|tm t0|tm t0] eqn:Ht; [done| |done].
    destruct (recv (time.C tm)) as [[v ch]|] eqn:Hr; simpl in Hst; [|done].
    injection Hst as <- <-. apply recv_Some in Hr as [Hb Hcp].
    rewrite Hb in H3. simpl in H3. simpl.
    destruct (decide (p = s)) as [->|Hne].
    + rewrite list_lookup_insert_eq by (by eapply lookup_lt_Some).
      rewrite Hl in IH. simpl. intros Hiv. destruct (IH Hiv) as [IH1 IH2].
      unfold timer_after in *. rewrite Ht in IH2. simpl. split.
      * apply spaced_snoc; [done|]. intros t1 Hlast.
        destruct (IH2 t1 Hlast) as (E & Hw & Hx).
        destruct (Hx v); [rewrite Hb; by left|]. lia.
      * intros t1 Hlast. rewrite last_snoc in Hlast. injection Hlast as <-.
        split; [done|]. split.
        -- intros t Hwh. rewrite Hwh in H3. lia.
        -- intros x Hin. destruct (buf ch); [by apply elem_of_nil in Hin|].
           simpl in H3. lia.
    + rewrite app_nil_r. by rewrite list_lookup_insert_ne by done.
  - destruct (heap st !! p) as [c|] eqn:Hl; simpl in Hst; [|done].
    unfold scheduleLoop in Hst.
    destruct (task c) as [|tm t0|tm t0] eqn:Ht; [done|done|].
    destruct (send p (jobch (scheduler st))) as [ch|] eqn:Hsd; simpl in Hst; [|done].
    injection Hst as <- <-. simpl. rewrite app_nil_r.
    destruct (decide (p = s)) as [->|Hne].
    + rewrite list_lookup_insert_eq by (by eapply lookup_lt_Some).
      rewrite Hl in IH. simpl. intros Hiv. destruct (IH Hiv) as [IH1 IH2].
      split; [done|]. unfold timer_after in *. by rewrite Ht in IH2.
    + by rewrite list_lookup_insert_ne by done.
  - destruct (heap st !! p) as [c|] eqn:Hl; simpl in Hst; [|done].
    unfold scheduleLoop in Hst.
    destruct (task c) as [|tm t0|tm t0] eqn:Ht; [done| |done].
    destruct (recv (confirmationChannel (obj c))) as [[v ch]|] eqn:Hr;
      simpl in Hst; [|done].
    injection Hst as <- <-. simpl. rewrite app_nil_r.
    destruct (decide (p = s)) as [->|Hne].
    + rewrite list_lookup_insert_eq by (by eapply lookup_lt_Some).
      rewrite Hl in IH. simpl. intros Hiv. destruct (IH Hiv) as [IH1 IH2].
      split; [done|]. unfold timer_after in *. rewrite Ht in IH2. simpl.
      intros t1 Hlast. destruct (IH2 t1 Hlast) as (E & Hw & Hx).
      split; [done|]. split; [|done].
      intros t [= <-]. subst t0.
      assert (Hle : t1 ≤ now st).
      { apply (Hstart s c); [done|]. unfold start_of. by rewrite Ht. }
      pose proof (Since_nonneg _ _ Hle) as Hp.
      pose proof (Since_at_most _ _ Hle) as Hq'.
      pose proof (waitTime_at_least _ _ Hiv Hp). lia.
    + by rewrite list_lookup_insert_ne by done.
  - unfold workerLoop in Hst. destruct (consumer st) eqn:Hw; [|done..].
    destruct (recv (jobch (scheduler st))) as [[p ch]|] eqn:Hr; simpl in Hst; [|done].
    injection Hst as <- <-. simpl. by rewrite app_nil_r.
  - unfold workerLoop in Hst. destruct (consumer st) as [|p|p] eqn:Hw; [done| |done].
    injection Hst as <- <-. simpl. by rewrite app_nil_r.
  - unfold workerLoop in Hst. destruct (consumer st) as [|p|p] eqn:Hw; [done|done|].
    destruct (heap st !! p) as [c|] eqn:Hl; simpl in Hst; [|done].
    destruct (send true (confirmationChannel (obj c))) as [ch|] eqn:Hsd;
      simpl in Hst; [|done].
    injection Hst as <- <-. simpl. rewrite app_nil_r.
    destruct (decide (p = s)) as [->|Hne].
    + rewrite list_lookup_insert_eq by (by eapply lookup_lt_Some).
      by rewrite Hl in IH.
    + by rewrite list_lookup_insert_ne by done.
Qed.

Lemma reachable_spacing t0 st evs s : reachable t0 st evs → spacing st evs s.
Proof.
  intros Hr. revert st evs Hr s.
  apply (reachable_induction t0 (λ st evs, ∀ s, spacing st evs s)).
  - intros s. by unfold spacing.
  - intros st evs a st' ev Hr IH Hst s.
    eapply step_spacing; [by eapply reachable_inv|by eapply reachable_startTime
                         |apply IH|done].
Qed.

(** X11. The runs of a Schedule are never requested closer together than its
    interval: in every execution, for a Schedule with interval [iv >= 0],
    any two consecutive recordings of [startTime] (line 90, when its timer
    has fired) are at least [iv] apart, however long its jobs took and
    however long it had to wait for the worker. *)
Theorem starts_one_interval_apart t0 st evs s c :
  reachable t0 st evs → heap st !! s = Some c →
  0 ≤ interval (obj c) ≤ max_int64 →
  spaced (interval (obj c)) (start_times s evs).
Proof.
  intros Hr Hl Hiv. pose proof (reachable_spacing _ _ _ s Hr) as Hsp.
  unfold spacing in Hsp. rewrite Hl in Hsp. by destruct (Hsp Hiv).
Qed.

Lemma undisturbed_reachable t0 st evs0 s ds st' evs :
  reachable t0 st evs0 → undisturbed s ds st = Some (st', evs) →
  reachable t0 st' (evs0 ++ evs).
Proof.
  revert st evs0 evs. induction ds as [|d ds IH]; intros st evs0 evs Hr Hun; simpl in Hun.
  - injection Hun as <- <-. by rewrite app_nil_r.
  - destruct (exec (cycle s d st) st) as [[st1 ev1]|] eqn:Hex; simpl in Hun; [|done].
    destruct (undisturbed s ds st1) as [[st2 ev2]|] eqn:Hun2; simpl in Hun; [|done].
    injection Hun as <- <-. rewrite app_assoc.
    eapply IH; [|done]. by eapply reachable_exec.
Qed.

Lemma three_runs_reachable : reachable (-1) three_runs_state three_runs_trace.
Proof.
  assert (Hr : reachable (-1) (solo_start 20) [EArm 0%nat time.Nanosecond]).
  { exists [CallAddSchedule 0%nat 20; LoopStart 0%nat]. vm_compute. reflexivity. }
  refine (undisturbed_reachable (-1) _ _ 0%nat [5; 10; 1] _ _ Hr _).
  vm_compute. reflexivity.
Defined.

Lemma starts_one_interval_apart_witness :
  spaced 20 (start_times 0%nat three_runs_trace).
Proof.
  refine (starts_one_interval_apart (-1) three_runs_state three_runs_trace 0%nat
            (mkCell (mkSchedule 20 0%nat (mkChan 1 []))
                    (L87 (time.mkTimer (Some 60) (mkChan 1 [])) 40))
            three_runs_reachable _ _).
  - vm_compute. reflexivity.
  - vm_compute. split; discriminate.
Defined.

(** X12. The expiry of a timer is never lost: whenever a timer of the package
    expires, its channel is empty, so the non-blocking send of the runtime
    goes through and the expiry waits in [timer.C] for the select. *)
Theorem expiry_never_dropped t0 st evs s c tm start tm' :
  reachable t0 st evs → heap st !! s = Some c →
  task c = L87 tm start ∨ task c = L91 tm start →
  time.expire tm (now st) = Some tm' →
  buf (time.C tm) = [] ∧ tm' = time.mkTimer None (mkChan 1 [now st])
  ∧ task c = L87 tm start.
Proof.
  intros Hr Hl Ht He. destruct (reachable_cell_ok _ _ _ _ _ Hr Hl) as (_ & H2 & H3).
  apply expire_Some in He as (t & Hwh & _ & ->).
  unfold tokens, started, pending, timer_cap, timer_pending in H2, H3.
  destruct Ht as [Ht|Ht]; rewrite Ht in H2, H3; rewrite Hwh in H3;
    simpl in H2, H3; [|lia].
  assert (Hb : buf (time.C tm) = []).
  { destruct (buf (time.C tm)); [done|]. simpl in H3. lia. }
  repeat split; [done| |done].
  rewrite send_free by (rewrite Hb, H2; simpl; lia). simpl. by rewrite Hb, H2.
Qed.

Lemma armed_reachable : reachable (-1) armed_state armed_trace.
Proof.
  exists [CallAddSchedule 0%nat 10; LoopStart 0%nat; Tick 1]. vm_compute. reflexivity.
Defined.

Lemma expiry_never_dropped_witness :
  buf (time.C (time.mkTimer (Some 0) (mkChan 1 []))) = []
  ∧ time.mkTimer None (mkChan 1 [0]) = time.mkTimer None (mkChan 1 [now armed_state])
  ∧ L87 (time.mkTimer (Some 0) (mkChan 1 [])) (-1)
    = L87 (time.mkTimer (Some 0) (mkChan 1 [])) (-1).
Proof.
  refine (expiry_never_dropped (-1) armed_state armed_trace 0%nat
            (mkCell (mkSchedule 10 0%nat (mkChan 1 []))
                    (L87 (time.mkTimer (Some 0) (mkChan 1 [])) (-1)))
            (time.mkTimer (Some 0) (mkChan 1 [])) (-1)
            (time.mkTimer None (mkChan 1 [0]))
            armed_reachable _ (or_introl eq_refl) _);
    vm_compute; reflexivity.
Defined.

(** X13. A run that is confirmed later than one interval after its [startTime]
    is followed at once: the timer is re-armed to expire one nanosecond
    after the confirmation is received; the ticks missed meanwhile are not
    made up for. *)
Theorem late_run_followed_at_once t0 st evs s c tm start v ch :
  reachable t0 st evs → heap st !! s = Some c → task c = L87 tm start →
  recv (confirmationChannel (obj c)) = Some (v, ch) →
  0 ≤ interval (obj c) < max_int64 →
  interval (obj c) < now st - start →
  step (LoopConfirmed s) st
  = Some (set_cell s (mkCell (mkSchedule (interval (obj c)) (worker (obj c)) ch)
                        (L87 (time.mkTimer (Some (now st + time.Nanosecond)) (time.C tm))
                             start)) st,
          [EArm s time.Nanosecond]).
Proof.
  intros Hr Hl Ht Hrv Hiv Hlate.
  rewrite (LoopConfirmed_arms st s c tm start v ch Hl Ht Hrv).
  assert (Hw : waitTime (interval (obj c)) (time.Since (now st) start) = time.Nanosecond).
  { assert (interval (obj c) < time.Since (now st) start ≤ max_int64).
    { unfold time.Since, time.Sub, sat64, min_int64, max_int64 in *. lia. }
    rewrite waitTime_compensates by lia.
    destruct (Z.leb_spec (time.Since (now st) start) (interval (obj c))); [lia|done]. }
  by rewrite Hw.
Qed.

Lemma late_run_followed_at_once_witness :
  step (LoopConfirmed 0%nat) acked_state
  = Some (set_cell 0%nat (mkCell (mkSchedule 10 0%nat (mkChan 1 []))
                            (L87 (time.mkTimer (Some (15 + time.Nanosecond)) (mkChan 1 []))
                                 0))
                   acked_state,
          [EArm 0%nat time.Nanosecond]).
Proof.
  refine (late_run_followed_at_once (-1) acked_state acked_trace 0%nat acked_cell
            (time.mkTimer None (mkChan 1 [])) 0 true (mkChan 1 [])
            acked_reachable eq_refl eq_refl eq_refl _ _).
  - vm_compute. split; [discriminate|reflexivity].
  - vm_compute. reflexivity.
Defined.
